(** * voiceiq-gio: the Twilio -> Azure speech relay of [server.js]

    A shallow embedding of the audio path and of the per-connection state
    machine of [server.js]:

    - [decodeMuLawToPCM16], the G.711 mu-law expansion, with JavaScript's
      32-bit integer operators and the [Int16Array] store written out;
    - the packing loop of the [media] case ([Buffer.allocUnsafe] and
      [writeInt16LE]);
    - the closure of [wss.on("connection")]: its four variables, the
      [message] and [close] listeners, [startRecognizer] and the recognizer
      callbacks, as state transformers that can throw.

    The runtime and the two SDKs are not part of the file: their calls are
    recorded in a history, and what they answer (a thrown exception, the bytes
    of [Buffer.from]) is taken from a [host] that every theorem quantifies
    over. *)

From Stdlib Require Import ZArith Lia List Bool Strings.String Strings.Byte.
From stdpp Require Import base list.
Import ListNotations.
Local Open Scope Z_scope.

(** ** JavaScript integer operators *)

Module JS.

(** ToInt32 and ToInt16 of an integral number. *)
Definition toInt32 (x : Z) : Z := (x + 2 ^ 31) mod 2 ^ 32 - 2 ^ 31.
Definition toInt16 (x : Z) : Z := (x + 2 ^ 15) mod 2 ^ 16 - 2 ^ 15.

(** [~x], [x & y], [x << n], [x >> n] on numbers that are integers. *)
Definition bnot (x : Z) : Z := Z.lnot (toInt32 x).
Definition band (x y : Z) : Z := Z.land (toInt32 x) (toInt32 y).
Definition shl (x n : Z) : Z := toInt32 (Z.shiftl (toInt32 x) (Z.land n 31)).
Definition sar (x n : Z) : Z := Z.shiftr (toInt32 x) (Z.land n 31).
(** [x >>> n]: the shift of the unsigned 32-bit reading. *)
Definition shr (x n : Z) : Z := Z.shiftr (toInt32 x mod 2 ^ 32) (Z.land n 31).

(** Truthiness of a number that is not NaN. *)
Definition truthy_num (x : Z) : bool := negb (x =? 0).

End JS.

(** ** Bytes of a [Buffer] *)

Definition byte_val (b : byte) : Z := Z.of_N (Byte.to_N b).

(** The byte a [Buffer] keeps of an integer: its low eight bits. *)
Definition byte_of_Z (z : Z) : byte :=
  match Byte.of_N (Z.to_N (z mod 256)) with
  | Some b => b
  | None => x00
  end.

(** ** The mu-law decoder (server.js, lines 20-30) *)

(** The body of the loop, for the element [mulawData[i]]: the value handed to
    the store [pcm16[i] = ...]. *)
Definition decodeSample (mulaw0 : Z) : Z :=
  let mulaw := JS.bnot mulaw0 in
  let t := JS.shl (JS.band mulaw 0xF) 3 + 0x84 in
  let t := JS.shl t (JS.sar (JS.band mulaw 0x70) 4) in
  if JS.truthy_num (JS.band mulaw 0x80) then 0x84 - t else t - 0x84.

(** [mulawData[i]] as a number; past the end the read is [undefined], which
    [~] turns into 0 first. *)
Definition elementAt (mulawData : list byte) (i : nat) : Z :=
  match mulawData !! i with
  | Some b => byte_val b
  | None => 0
  end.

(** [for (let i = 0; i < mulawData.length; i++) pcm16[i] = ...]: [todo]
    iterations are left, [i] is the loop index and [pcm16] the array so far.
    A store into an [Int16Array] converts with ToInt16. *)
Fixpoint decodeLoop (mulawData : list byte) (todo i : nat) (pcm16 : list Z)
  : list Z :=
  match todo with
  | O => pcm16
  | S todo' =>
      decodeLoop mulawData todo' (S i)
        (<[i := JS.toInt16 (decodeSample (elementAt mulawData i))]> pcm16)
  end.

Definition decodeMuLawToPCM16 (mulawData : list byte) : list Z :=
  let n := length mulawData in
  decodeLoop mulawData n 0 (replicate n 0).

(** The sample stored for one byte. *)
Definition pcmOfByte (b : byte) : Z := JS.toInt16 (decodeSample (byte_val b)).

(** The expansion in the words of the specification, to compare with the
    loop body: mantissa in the low four bits of the inverted byte, exponent in
    bits 4 to 6, magnitude [(((mantissa << 3) + 0x84) << exponent) - 0x84]. *)
Definition expansion_magnitude (b : byte) : Z :=
  let u := Z.lnot (byte_val b) in
  let mantissa := Z.land u 0xF in
  let exponent := Z.land (Z.shiftr u 4) 7 in
  Z.shiftl (Z.shiftl mantissa 3 + 0x84) exponent - 0x84.

(** ** Completions: a JavaScript computation returns or throws *)

Inductive exn :=
| TypeError     (* a property read on [null], a call of something not callable *)
| RangeError    (* [writeInt16LE] out of range *)
| HostError.    (* whatever a library call throws *)

Inductive completion (A : Type) :=
| Normal (a : A)
| Throw (e : exn).
Arguments Normal {A} a.
Arguments Throw {A} e.

(** ** Packing the samples (media case, lines 150-151) *)

(** [buf.writeInt16LE(value, offset)]: Node checks the value against
    [-0x8000, 0x7fff] and the offset against the buffer, throws a range error
    otherwise, and stores [value] and [value >>> 8] as bytes. *)
Definition writeInt16LE (buf : list byte) (value : Z) (offset : nat)
  : completion (list byte) :=
  if (-32768 <=? value) && (value <=? 32767) && (offset + 2 <=? length buf)%nat
  then Normal (<[S offset := byte_of_Z (JS.shr value 8)]>
                 (<[offset := byte_of_Z value]> buf))
  else Throw RangeError.

(** [pcm16[i]] read back from the [Int16Array]. *)
Definition sampleAt (pcm16 : list Z) (i : nat) : Z :=
  match pcm16 !! i with
  | Some v => v
  | None => 0
  end.

(** [for (let i = 0; i < pcm16.length; i++) buf.writeInt16LE(pcm16[i], i * 2)] *)
Fixpoint packLoop (pcm16 : list Z) (todo i : nat) (buf : list byte)
  : completion (list byte) :=
  match todo with
  | O => Normal buf
  | S todo' =>
      match writeInt16LE buf (sampleAt pcm16 i) (i * 2) with
      | Normal buf' => packLoop pcm16 todo' (S i) buf'
      | Throw e => Throw e
      end
  end.

(** The two bytes of one sample, low byte first. *)
Definition int16LE (v : Z) : list byte := [byte_of_Z v; byte_of_Z (JS.shr v 8)].

(** ** JSON values and property reads *)

#[local] Set Warnings "-register-all".

(** What [JSON.parse] returns.  A number is kept as an integer: the handler
    only tests numbers for truthiness and never computes with them.  An object
    is the list of its own properties. *)
Inductive json :=
| JNull
| JBool (b : bool)
| JNum (n : Z)
| JStr (s : string)
| JArr (items : list json)
| JObj (fields : list (string * json)).

(** A JavaScript value read by the handler: [None] is [undefined]. *)
Definition value := option json.

Fixpoint assoc (k : string) (fields : list (string * json)) : value :=
  match fields with
  | [] => None
  | (k', v) :: rest => if String.eqb k k' then Some v else assoc k rest
  end.

Definition truthy (v : value) : bool :=
  match v with
  | None | Some JNull => false
  | Some (JBool b) => b
  | Some (JNum n) => JS.truthy_num n
  | Some (JStr s) => negb (String.eqb s "")
  | Some (JArr _) | Some (JObj _) => true
  end.

(** [v.k] for the keys the handler reads ([event], [start], [callSid],
    [media], [payload]): none of them is a property of a string, a number, a
    boolean or an array, and a read on [null] throws. *)
Definition getProp (v : json) (k : string) : completion value :=
  match v with
  | JNull => Throw TypeError
  | JObj fields => Normal (assoc k fields)
  | _ => Normal None
  end.

(** [v?.k]: [undefined] when [v] is [undefined] or [null]. *)
Definition getPropOpt (v : value) (k : string) : value :=
  match v with
  | Some (JObj fields) => assoc k fields
  | _ => None
  end.

(** [v === s] for a string literal [s]. *)
Definition is_str (v : value) (s : string) : bool :=
  match v with
  | Some (JStr s') => String.eqb s' s
  | _ => false
  end.

(** [e.result?.text] of a recognizer event is a string or [undefined]. *)
Definition truthy_text (text : option string) : bool :=
  match text with
  | Some s => negb (String.eqb s "")
  | None => false
  end.

(** ** Calls that leave the program *)

(** The callbacks the program hands to the SDK. *)
Inductive continuation :=
| LogStarted        (* () => console.log("Recognizer started") *)
| LogStartError     (* (err) => console.error("Recognizer start error:", ...) *)
| CloseRec.         (* () => rec.close() *)

Inductive log_line :=
| LogConnected
| LogStreamStarted (sid : json)
| LogInterim (text : string)
| LogFinal (text : string)
| LogDebounce
| LogPostError
| LogCanceled
| LogSessionStopped
| LogRecognizerStarted
| LogRecognizerStartError
| LogStopReceived
| LogClosed
| LogWsError.

(** The body of the webhook request, before [JSON.stringify]. *)
Record post_body := {
  body_callSid : json;
  body_text : string;
  body_timestamp : string
}.

Inductive call :=
| console (l : log_line)
| SpeechConfig_fromSubscription
| getWaveFormatPCM (samplesPerSec bitsPerSample channels : Z)
| createPushStream (ps : nat)
| AudioConfig_fromStreamInput (ps : nat)
| new_SpeechRecognizer (r audio : nat)
| startContinuousRecognitionAsync (r : nat) (cb err : continuation)
| pushStream_write (ps : nat) (buf : list byte)
| pushStream_close (ps : nat)
| stopContinuousRecognitionAsync (r : nat) (cb err : continuation)
| recognizer_close (r : nat)
| ws_close
| fetch (url : string) (body : post_body).

(** What the program does not decide: whether a library call throws (given
    the calls made so far), what [Buffer.from(payload, "base64")] returns, what
    [Buffer.allocUnsafe] finds in memory, and the webhook address of
    [process.env]. *)
Record host := {
  throws : list call -> call -> bool;
  Buffer_from : json -> completion (list byte);
  junk : nat -> byte;
  N8N : string
}.

(** ** The connection: the variables of the closure and what it did *)

Record conn := {
  callSid : json;
  rec : option nat;
  pushStream : option nat;
  lastSentTime : Z;
  history : list call;     (* oldest call first *)
  next_obj : nat           (* objects allocated so far *)
}.

Definition set_callSid (v : json) (st : conn) : conn :=
  {| callSid := v; rec := rec st; pushStream := pushStream st;
     lastSentTime := lastSentTime st; history := history st;
     next_obj := next_obj st |}.

Definition set_rec (r : option nat) (st : conn) : conn :=
  {| callSid := callSid st; rec := r; pushStream := pushStream st;
     lastSentTime := lastSentTime st; history := history st;
     next_obj := next_obj st |}.

Definition set_pushStream (ps : option nat) (st : conn) : conn :=
  {| callSid := callSid st; rec := rec st; pushStream := ps;
     lastSentTime := lastSentTime st; history := history st;
     next_obj := next_obj st |}.

Definition set_lastSentTime (t : Z) (st : conn) : conn :=
  {| callSid := callSid st; rec := rec st; pushStream := pushStream st;
     lastSentTime := t; history := history st; next_obj := next_obj st |}.

Definition record_call (c : call) (st : conn) : conn :=
  {| callSid := callSid st; rec := rec st; pushStream := pushStream st;
     lastSentTime := lastSentTime st; history := history st ++ [c];
     next_obj := next_obj st |}.

Definition bump (st : conn) : conn :=
  {| callSid := callSid st; rec := rec st; pushStream := pushStream st;
     lastSentTime := lastSentTime st; history := history st;
     next_obj := S (next_obj st) |}.

(** The four [let] variables of the closure. *)
Definition session_vars (st : conn) : json * option nat * option nat * Z :=
  (callSid st, rec st, pushStream st, lastSentTime st).

(** [wss.on("connection")]: lines 59-63. *)
Definition connected : conn :=
  {| callSid := JStr ""; rec := None; pushStream := None; lastSentTime := 0;
     history := [console LogConnected]; next_obj := 0 |}.

(** ** Computations on a connection *)

(** Side effects survive a throw: the state comes back in both cases. *)
Definition M (A : Type) : Type := conn -> completion A * conn.

#[global] Instance M_ret : MRet M := fun A a st => (Normal a, st).

#[global] Instance M_bind : MBind M := fun A B f m st =>
  match m st with
  | (Normal a, st') => f a st'
  | (Throw e, st') => (Throw e, st')
  end.

Definition get : M conn := fun st => (Normal st, st).
Definition modify (f : conn -> conn) : M unit := fun st => (Normal tt, f st).
Definition lift {A} (c : completion A) : M A := fun st => (c, st).

(** [try { m } catch { handler }] *)
Definition try_catch (m handler : M unit) : M unit := fun st =>
  match m st with
  | (Normal a, st') => (Normal a, st')
  | (Throw _, st') => handler st'
  end.

Definition skip : M unit := mret tt.

Definition log (l : log_line) : M unit := modify (record_call (console l)).

(** [new] or a factory of the SDK: the next object. *)
Definition fresh : M nat := fun st => (Normal (next_obj st), bump st).

Section Handlers.

Variable h : host.

(** A call into a library: it is made, then it returns or throws. *)
Definition extcall (c : call) : M unit := fun st =>
  (if throws h (history st) c then Throw HostError else Normal tt,
   record_call c st).

(** [Buffer.allocUnsafe(n)] *)
Definition allocUnsafe (n : nat) : list byte := map (junk h) (seq 0 n).

(** *** startRecognizer (lines 65-129) *)
Definition startRecognizer : M unit :=
  extcall SpeechConfig_fromSubscription;;
  extcall (getWaveFormatPCM 8000 16 1);;
  ps ← fresh;
  extcall (createPushStream ps);;
  modify (set_pushStream (Some ps));;
  extcall (AudioConfig_fromStreamInput ps);;
  r ← fresh;
  extcall (new_SpeechRecognizer r ps);;
  modify (set_rec (Some r));;
  extcall (startContinuousRecognitionAsync r LogStarted LogStartError).

(** *** rec.recognizing (lines 75-80) *)
Definition recognizing (text : option string) : M unit :=
  match text with
  | Some s => if truthy_text text then log (LogInterim s) else skip
  | None => skip
  end.

(** *** rec.recognized (lines 83-112), up to the [await]

    [now] is what [Date.now()] answers and [iso] what
    [new Date().toISOString()] answers.  The function is [async]: it runs
    up to [await fetch(...)] and is resumed by [fetch_settled]. *)
Definition recognized (text : option string) (now : Z) (iso : string)
  : M unit :=
  match text with
  | Some s =>
      if truthy_text text then
        log (LogFinal s);;
        st ← get;
        if now - lastSentTime st <? 2000 then log LogDebounce
        else
          modify (set_lastSentTime now);;
          if negb (String.eqb (N8N h) "") then
            st ← get;
            try_catch
              (extcall (fetch (N8N h)
                          {| body_callSid := callSid st; body_text := s;
                             body_timestamp := iso |}))
              (log LogPostError)
          else skip
      else skip
  | None => skip
  end.

(** The rest of [rec.recognized], once the promise of [fetch] settles. *)
Definition fetch_settled (fulfilled : bool) : M unit :=
  if fulfilled then skip else log LogPostError.

(** *** ws.on("message") (lines 131-161) *)

Definition start_case (data : json) : M unit :=
  let sid := getPropOpt (getPropOpt (Some data) "start") "callSid" in
  modify (set_callSid (match sid with
                       | Some v => if truthy sid then v else JStr ""
                       | None => JStr ""
                       end));;
  st ← get;
  log (LogStreamStarted (callSid st));;
  startRecognizer.

Definition media_case (data : json) : M unit :=
  st ← get;
  let payload := getPropOpt (getPropOpt (Some data) "media") "payload" in
  match pushStream st, payload with
  | Some ps, Some p =>
      if truthy payload then
        ulaw ← lift (Buffer_from h p);
        let pcm16 := decodeMuLawToPCM16 ulaw in
        let buf := allocUnsafe (length pcm16 * 2) in
        buf ← lift (packLoop pcm16 (length pcm16) 0 buf);
        extcall (pushStream_write ps buf)
      else skip
  | _, _ => skip
  end.

Definition stop_case : M unit :=
  log LogStopReceived;;
  extcall ws_close.

(** [parsed] is what [JSON.parse(raw.toString())] gave: [None] when it
    threw. *)
Definition on_message (parsed : option json) : M unit :=
  match parsed with
  | None => skip
  | Some data =>
      ev ← lift (getProp data "event");
      if is_str ev "start" then start_case data
      else if is_str ev "media" then media_case data
      else if is_str ev "stop" then stop_case
      else skip
  end.

(** *** ws.on("close") (lines 163-174) *)
Definition on_close : M unit :=
  log LogClosed;;
  try_catch
    (st ← get;
     match pushStream st with
     | Some ps => extcall (pushStream_close ps)
     | None => skip
     end)
    skip;;
  try_catch
    (st ← get;
     match rec st with
     | Some r => extcall (stopContinuousRecognitionAsync r CloseRec CloseRec)
     | None => skip
     end)
    skip.

(** The SDK calls back one of the functions it was given.  [rec] is read
    when the callback runs. *)
Definition run_continuation (k : continuation) : M unit :=
  match k with
  | LogStarted => log LogRecognizerStarted
  | LogStartError => log LogRecognizerStartError
  | CloseRec =>
      st ← get;
      match rec st with
      | Some r => extcall (recognizer_close r)
      | None => lift (Throw TypeError)
      end
  end.

(** ** Events of one connection *)

Inductive event :=
| WsMessage (parsed : option json)
| WsClose
| WsError
| Recognizing (text : option string)
| Recognized (text : option string) (now : Z) (iso : string)
| Canceled
| SessionStopped
| Settled (k : continuation)
| FetchSettled (fulfilled : bool).

Definition dispatch (ev : event) : M unit :=
  match ev with
  | WsMessage parsed => on_message parsed
  | WsClose => on_close
  | WsError => log LogWsError
  | Recognizing text => recognizing text
  | Recognized text now iso => recognized text now iso
  | Canceled => log LogCanceled
  | SessionStopped => log LogSessionStopped
  | Settled k => run_continuation k
  | FetchSettled fulfilled => fetch_settled fulfilled
  end.

(** Events are handled one at a time, to completion; an exception that
    leaves a listener is not caught by anything in the program. *)
Fixpoint run (evs : list event) (st : conn) : completion unit * conn :=
  match evs with
  | [] => (Normal tt, st)
  | ev :: evs' =>
      match dispatch ev st with
      | (Normal _, st') => run evs' st'
      | (Throw e, st') => (Throw e, st')
      end
  end.

End Handlers.

(** ** What an observer of the history sees *)

(** The webhook requests made. *)
Definition posts (hist : list call) : list (string * post_body) :=
  omap (fun c => match c with fetch url body => Some (url, body) | _ => None end) hist.

(** The buffers fed to a push stream, whichever it is. *)
Definition writes (hist : list call) : list (list byte) :=
  omap (fun c => match c with pushStream_write _ buf => Some buf | _ => None end) hist.

Definition constructed (hist : list call) : list nat :=
  omap (fun c => match c with new_SpeechRecognizer r _ => Some r | _ => None end) hist.

Definition released (hist : list call) : list nat :=
  omap (fun c => match c with recognizer_close r => Some r | _ => None end) hist.

Definition sink_closes (hist : list call) : list nat :=
  omap (fun c => match c with pushStream_close ps => Some ps | _ => None end) hist.

Definition stop_requests (hist : list call) : list (nat * continuation * continuation) :=
  omap (fun c => match c with
                 | stopContinuousRecognitionAsync r cb err => Some (r, cb, err)
                 | _ => None
                 end) hist.

(** The recognizers that were constructed and not released since (on a host
    whose constructor returns). *)
Definition live_recognizers (hist : list call) : list nat :=
  filter (fun r => r ∉ released hist) (constructed hist).

Definition not_fetch (c : call) : Prop :=
  match c with
  | fetch _ _ => False
  | _ => True
  end.

(** The request [rec.recognized] submits for the text [s] in state [st]. *)
Definition request (h : host) (st : conn) (s iso : string) : string * post_body :=
  (N8N h, {| body_callSid := callSid st; body_text := s; body_timestamp := iso |}).

(** A computation leaves an observation of the connection as it found it,
    whether it returns or throws. *)
Definition preserves {A X : Type} (f : conn -> X) (m : M A) : Prop :=
  forall st, f (snd (m st)) = f st.

(** ** Messages of the Twilio media stream protocol *)

Definition start_message (sid : string) : json :=
  JObj [("event", JStr "start"); ("start", JObj [("callSid", JStr sid)])]%string.

Definition media_message (payload : string) : json :=
  JObj [("event", JStr "media"); ("media", JObj [("payload", JStr payload)])]%string.

Definition stop_message : json := JObj [("event", JStr "stop")]%string.


Definition is_recognized (ev : event) : bool :=
  match ev with
  | Recognized _ _ _ => true
  | _ => false
  end.

Definition is_start (ev : event) : bool :=
  match ev with
  | WsMessage (Some (JObj fields)) => is_str (assoc "event" fields) "start"
  | _ => false
  end.

(** ** A host to run examples on

    No library call throws, memory is zeroed, and [Buffer.from] decodes the
    base64 alphabet of a string, skipping every other character. *)

Definition sextet (c : Ascii.ascii) : option N :=
  let n := Ascii.N_of_ascii c in
  (if (65 <=? n) && (n <=? 90) then Some (n - 65)
   else if (97 <=? n) && (n <=? 122) then Some (n - 71)
   else if (48 <=? n) && (n <=? 57) then Some (n + 4)
   else if (n =? 43) || (n =? 45) then Some 62
   else if (n =? 47) || (n =? 95) then Some 63
   else None)%N.

Fixpoint base64_bytes (s : string) (acc nbits : N) : list byte :=
  match s with
  | EmptyString => []
  | String c rest =>
      match sextet c with
      | None => base64_bytes rest acc nbits
      | Some v =>
          let acc' := (acc * 64 + v)%N in
          let nbits' := (nbits + 6)%N in
          if (8 <=? nbits')%N then
            byte_of_Z (Z.of_N (acc' / 2 ^ (nbits' - 8)))
              :: base64_bytes rest (acc' mod 2 ^ (nbits' - 8))%N (nbits' - 8)%N
          else base64_bytes rest acc' nbits'
      end
  end.

Definition quiet_host (url : string) : host :=
  {| throws := fun _ _ => false;
     Buffer_from := fun p => match p with
                             | JStr s => Normal (base64_bytes s 0 0)
                             | _ => Throw TypeError
                             end;
     junk := fun _ => x00;
     N8N := url |}.

(** *** Example scenarios *)

(** Four mu-law bytes, [ff 7f 00 80], in base64. *)
Definition example_frame : string := "/38AgA==".

Definition example_start : event := WsMessage (Some (start_message "CA123")).
Definition example_media : event := WsMessage (Some (media_message example_frame)).

(** A connection on which one call has started. *)
Definition streaming : conn := snd (run (quiet_host "") [example_start] connected).

(** The same connection once the transport has closed. *)
Definition torn_down : conn := snd (run (quiet_host "") [WsClose] streaming).

(** ** Further definitions: observations used by the properties below *)

(** The byte with the top bit flipped: the code of the opposite sign. *)
Definition flip_top (b : byte) : byte := byte_of_Z (Z.lxor (byte_val b) 0x80).

(** The integers a byte can hold. *)
Definition byte_values : list Z := map Z.of_nat (seq 0 256).

(** Pairwise checks on the decoder: boolean functions of two byte values and
    of their samples. *)
Definition magnitude_order_check (x sx y sy : Z) : bool :=
  implb ((x <? y) && Bool.eqb (Z.testbit x 7) (Z.testbit y 7))
        (Z.abs sy <? Z.abs sx).

Definition injective_check (x sx y sy : Z) : bool :=
  implb (sx =? sy) ((x =? y) || (sx =? 0)).

(** A check run on every pair of rows of the decoding table. *)
Definition all_pairs (P : Z -> Z -> Z -> Z -> bool) : bool :=
  let table := map (fun x => (x, decodeSample x)) byte_values in
  forallb (fun p => forallb (fun q => P (fst p) (snd p) (fst q) (snd q)) table) table.

(** What the media case writes for the decoded payload [ulaw]. *)
Definition pack_frame (ulaw : list byte) : list byte :=
  flat_map (fun b => int16LE (pcmOfByte b)) ulaw.

(** A media message with an arbitrary payload value. *)
Definition media_event (p : json) : event :=
  WsMessage (Some (JObj [("event", JStr "media"); ("media", JObj [("payload", p)])]%string)).

(** A media message whose payload is a number. *)
Definition number_payload_message : json :=
  JObj [("event", JStr "media"); ("media", JObj [("payload", JNum 5)])]%string.

(** A host on which the constructor of the recognizer throws, and nothing
    else does. *)
Definition failing_constructor_host : host :=
  {| throws := fun _ c => match c with new_SpeechRecognizer _ _ => true | _ => false end;
     Buffer_from := Buffer_from (quiet_host EmptyString);
     junk := fun _ => x00;
     N8N := EmptyString |}.

(** A host on which [fetch] throws, and nothing else does. *)
Definition failing_fetch_host (url : string) : host :=
  {| throws := fun _ c => match c with fetch _ _ => true | _ => false end;
     Buffer_from := Buffer_from (quiet_host EmptyString);
     junk := fun _ => x00;
     N8N := url |}.


(** A host that differs in what [Buffer.allocUnsafe] finds in memory only. *)
Definition with_junk (j : nat -> byte) (h : host) : host :=
  {| throws := throws h; Buffer_from := Buffer_from h; junk := j; N8N := N8N h |}.

(** A computation only appends to the history, and only calls that satisfy
    [P]. *)
Definition emits {A : Type} (P : call -> Prop) (m : M A) : Prop :=
  forall st, exists added,
    history (snd (m st)) = history st ++ added /\ Forall P added.

(** The kinds of event, as the listeners tell them apart. *)
Inductive kind :=
| StartMessage | MediaMessage | StopMessage | OtherMessage
| TransportClose | FinalResult | Release | Quiet.

#[global] Instance kind_eq_dec : EqDecision kind.
Proof. solve_decision. Defined.

Definition kind_of (ev : event) : kind :=
  match ev with
  | WsMessage None => OtherMessage
  | WsMessage (Some data) =>
      match getProp data "event" with
      | Normal name =>
          if is_str name "start" then StartMessage
          else if is_str name "media" then MediaMessage
          else if is_str name "stop" then StopMessage
          else OtherMessage
      | Throw _ => OtherMessage
      end
  | WsClose => TransportClose
  | Recognized _ _ _ => FinalResult
  | Settled CloseRec => Release
  | _ => Quiet
  end.

(** Which calls a listener can make, by the kind of event it handles. *)
Definition allowed (k : kind) (c : call) : Prop :=
  match c with
  | console _ => True
  | SpeechConfig_fromSubscription | createPushStream _
  | AudioConfig_fromStreamInput _ | new_SpeechRecognizer _ _ =>
      k = StartMessage
  | getWaveFormatPCM rate bits channels =>
      k = StartMessage /\ rate = 8000 /\ bits = 16 /\ channels = 1
  | startContinuousRecognitionAsync _ cb err =>
      k = StartMessage /\ cb = LogStarted /\ err = LogStartError
  | pushStream_write _ _ => k = MediaMessage
  | ws_close => k = StopMessage
  | pushStream_close _ => k = TransportClose
  | stopContinuousRecognitionAsync _ cb err =>
      k = TransportClose /\ cb = CloseRec /\ err = CloseRec
  | recognizer_close _ => k = Release
  | fetch _ _ => k = FinalResult
  end.

(** The invariant of a connection: a recognizer is never held without a push
    stream; a stop is never requested without a recognizer being held; the
    recognizer held, and every recognizer released, was constructed. *)
Definition session_inv (st : conn) : Prop :=
  (is_Some (rec st) -> is_Some (pushStream st)) /\
  (stop_requests (history st) <> [] -> is_Some (rec st)) /\
  (forall r, rec st = Some r -> r ∈ constructed (history st)) /\
  (forall r, r ∈ released (history st) -> r ∈ constructed (history st)).


(** ** voiceTwiml (server.js, lines 36-46) *)

Definition dq : string := String (Ascii.ascii_of_nat 34) EmptyString.
Definition nl : string := String (Ascii.ascii_of_nat 10) EmptyString.

(** A template placeholder applied to a string or to [undefined]. *)
Definition interpolate (x : option string) : string :=
  match x with
  | Some s => s
  | None => "undefined"
  end.

(** The text before and after the host name in the document. *)
Definition twiml_head : string :=
  ("<Response>" ++ nl
   ++ "    <Say voice=" ++ dq ++ "Polly.Matthew" ++ dq
   ++ ">Hi! My name is Gio from Trend Micro Support. How can I assist you today?</Say>"
   ++ nl
   ++ "    <Start><Stream url=" ++ dq)%string.

Definition twiml_tail : string :=
  (dq ++ " track=" ++ dq ++ "inbound" ++ dq ++ "/></Start>" ++ nl
   ++ "    <Pause length=" ++ dq ++ "60" ++ dq ++ "/>" ++ nl
   ++ "  </Response>")%string.

(** [hostname] is [req.headers.host]: a string, or [undefined] when the
    request has no such header.  The value returned; the same text goes to
    the console. *)
Definition voiceTwiml (hostname : option string) : string :=
  let wsUrl := ("wss://" ++ interpolate hostname ++ "/twilio")%string in
  (twiml_head ++ wsUrl ++ twiml_tail)%string.

Definition contains (s t : string) : Prop :=
  exists pre post, t = (pre ++ s ++ post)%string.

(** ** Configuration (server.js, lines 9-17) *)

Module Config.

(** [process.env]: a variable is a string or is not set. *)
Definition environment : Type := string -> option string.

(** [a || b] on strings that may be [undefined]. *)
Definition or_else (a b : option string) : option string :=
  if truthy_text a then a else b.

Definition PORT (env : environment) : string + Z :=
  match env "PORT"%string with
  | Some s => if truthy_text (Some s) then inl s else inr 8081
  | None => inr 8081
  end.

Definition KEY (env : environment) : option string := env "AZURE_SPEECH_KEY"%string.

Definition REGION (env : environment) : option string :=
  or_else (env "AZURE_SPEECH_REGION"%string) (env "AZURE_REGION"%string).

Definition N8N (env : environment) : string :=
  match or_else (or_else (env "N8N_WEBHOOK_URL"%string) (env "N8N_WEBHOOK"%string))
          (Some EmptyString) with
  | Some s => s
  | None => EmptyString
  end.

(** [if (!KEY || !REGION) { ...; process.exit(1); }] *)
Definition exits (env : environment) : bool :=
  negb (truthy_text (KEY env)) || negb (truthy_text (REGION env)).

End Config.

(** * Theorems *)

(** ** The decoder *)

Example decode_silence_FF : decodeMuLawToPCM16 [xff] = [0].
Proof. reflexivity. Qed.

Example decode_silence_7F : decodeMuLawToPCM16 [x7f] = [0].
Proof. reflexivity. Qed.

Example decode_extremes :
  decodeMuLawToPCM16 [x00; x80; x0f; x8f] = [-32124; 32124; -16764; 16764].
Proof. reflexivity. Qed.

Example base64_frame : base64_bytes "/38AgA==" 0 0 = [xff; x7f; x00; x80].
Proof. reflexivity. Qed.

(** The loop is a [map]: element [i] of the result depends on byte [i] only. *)
Lemma decodeLoop_spec (mulawData : list byte) :
  forall (todo i : nat) (pcm16 : list Z),
    (i + todo)%nat = length mulawData ->
    length pcm16 = length mulawData ->
    decodeLoop mulawData todo i pcm16
    = take i pcm16 ++ map pcmOfByte (drop i mulawData).
Proof.
  induction todo as [|todo IH]; intros i pcm16 Hi Hlen; simpl.
  - rewrite drop_ge by lia. rewrite take_ge by lia. by rewrite app_nil_r.
  - assert (Hlt : (i < length mulawData)%nat) by lia.
    destruct (lookup_lt_is_Some_2 mulawData i Hlt) as [b Hb].
    rewrite IH by (rewrite ?length_insert; lia).
    rewrite (drop_S mulawData b i Hb). simpl.
    unfold elementAt. rewrite Hb. fold (pcmOfByte b).
    erewrite take_S_r by (apply list_lookup_insert_eq; lia).
    rewrite take_insert_ge by lia.
    by rewrite <- app_assoc.
Qed.

Lemma decodeMuLawToPCM16_map (mulawData : list byte) :
  decodeMuLawToPCM16 mulawData = map pcmOfByte mulawData.
Proof.
  unfold decodeMuLawToPCM16.
  rewrite decodeLoop_spec by (rewrite ?length_replicate; lia).
  reflexivity.
Qed.

Lemma decodeMuLawToPCM16_length (mulawData : list byte) :
  length (decodeMuLawToPCM16 mulawData) = length mulawData.
Proof. rewrite decodeMuLawToPCM16_map. apply length_map. Qed.

(** *** Arithmetic of one sample *)

Lemma byte_val_range (b : byte) : 0 <= byte_val b < 256.
Proof.
  unfold byte_val. pose proof (Byte.to_N_bounded b). lia.
Qed.

Lemma toInt32_small (x : Z) : - 2 ^ 31 <= x < 2 ^ 31 -> JS.toInt32 x = x.
Proof.
  intros Hx. unfold JS.toInt32. rewrite Z.mod_small by lia. lia.
Qed.

Lemma toInt16_small (x : Z) : - 2 ^ 15 <= x < 2 ^ 15 -> JS.toInt16 x = x.
Proof.
  intros Hx. unfold JS.toInt16. rewrite Z.mod_small by lia. lia.
Qed.

(** A mask with a non-negative constant stays between 0 and the constant,
    whatever the sign of the other operand. *)
Lemma land_mask_range (a m : Z) : 0 <= m -> 0 <= Z.land a m <= m.
Proof.
  intros Hm. split.
  - apply Z.land_nonneg. by right.
  - pose proof (Z.sub_land_same_l m a) as Hsub.
    assert (0 <= Z.land m (Z.lnot a)) by (apply Z.land_nonneg; by left).
    rewrite (Z.land_comm a m). lia.
Qed.

Lemma band_mask (x m : Z) :
  - 2 ^ 31 <= x < 2 ^ 31 -> 0 <= m < 2 ^ 31 ->
  JS.band x m = Z.land x m /\ 0 <= JS.band x m <= m.
Proof.
  intros Hx Hm. unfold JS.band. rewrite !toInt32_small by lia.
  split; [reflexivity | apply land_mask_range; lia].
Qed.

Lemma shl_small (x n : Z) :
  0 <= n < 32 -> 0 <= x -> x * 2 ^ n < 2 ^ 31 -> JS.shl x n = x * 2 ^ n.
Proof.
  intros Hn Hx Hfit. unfold JS.shl.
  assert (Hcount : Z.land n 31 = n).
  { change 31 with (Z.ones 5). rewrite Z.land_ones by lia.
    apply Z.mod_small. change (2 ^ 5) with 32. lia. }
  assert (1 <= 2 ^ n) by (apply (Z.pow_le_mono_r 2 0 n); lia).
  rewrite Hcount, (toInt32_small x) by nia.
  rewrite Z.shiftl_mul_pow2 by lia. apply toInt32_small. nia.
Qed.

(** The decoder in arithmetic: mantissa [m], exponent [e] and the sign bit
    are fields of the inverted byte. *)
Lemma decodeSample_arith (x : Z) :
  0 <= x < 256 ->
  let u := Z.lnot x in
  let m := Z.land u 0xF in
  let e := Z.shiftr (Z.land u 0x70) 4 in
  0 <= m <= 15 /\ 0 <= e <= 7 /\
  decodeSample x
  = if Z.land u 0x80 =? 0 then (m * 8 + 0x84) * 2 ^ e - 0x84
    else 0x84 - (m * 8 + 0x84) * 2 ^ e.
Proof.
  intros Hx u m e.
  assert (Hu : - 2 ^ 31 <= u < 2 ^ 31) by (unfold u; rewrite Z.lnot_eq_pred_opp; lia).
  assert (Hm : 0 <= m <= 15) by (apply land_mask_range; lia).
  assert (Hseg : 0 <= Z.land u 0x70 <= 0x70) by (apply land_mask_range; lia).
  assert (He : 0 <= e <= 7).
  { unfold e. rewrite Z.shiftr_div_pow2 by lia. change (2 ^ 4) with 16.
    split; [apply Z.div_pos; lia | apply Z.div_le_upper_bound; lia]. }
  split; [exact Hm | split; [exact He |]].
  unfold decodeSample, JS.bnot. rewrite (toInt32_small x) by lia. fold u.
  destruct (band_mask u 0xF Hu) as [-> _]; [lia |].
  destruct (band_mask u 0x70 Hu) as [-> _]; [lia |].
  destruct (band_mask u 0x80 Hu) as [-> _]; [lia |].
  fold m.
  rewrite (shl_small m 3) by lia. change (2 ^ 3) with 8.
  assert (Hsar : JS.sar (Z.land u 0x70) 4 = e).
  { unfold JS.sar. rewrite toInt32_small by lia. reflexivity. }
  rewrite Hsar.
  assert (Hpow : 1 <= 2 ^ e <= 128).
  { split; [apply (Z.pow_le_mono_r 2 0 e); lia
           | apply (Z.pow_le_mono_r 2 e 7); lia]. }
  rewrite (shl_small (m * 8 + 0x84) e) by nia.
  unfold JS.truthy_num. destruct (Z.land u 0x80 =? 0); reflexivity.
Qed.

Lemma decodeSample_bounds (x : Z) :
  0 <= x < 256 -> -32124 <= decodeSample x <= 32124.
Proof.
  intros Hx. destruct (decodeSample_arith x Hx) as (Hm & He & ->).
  set (m := Z.land (Z.lnot x) 0xF) in *.
  set (e := Z.shiftr (Z.land (Z.lnot x) 0x70) 4) in *.
  assert (Hpow : 1 <= 2 ^ e <= 128).
  { split; [apply (Z.pow_le_mono_r 2 0 e); lia
           | apply (Z.pow_le_mono_r 2 e 7); lia]. }
  destruct (Z.land (Z.lnot x) 0x80 =? 0); nia.
Qed.

(** The store into the [Int16Array] keeps the value. *)
Lemma pcmOfByte_decodeSample (b : byte) : pcmOfByte b = decodeSample (byte_val b).
Proof.
  unfold pcmOfByte. apply toInt16_small.
  pose proof (decodeSample_bounds (byte_val b) (byte_val_range b)). lia.
Qed.

(** C10: every decoded sample lies in [-32124, 32124]; the value fits a
    signed 16-bit integer, so the store into the [Int16Array] (ToInt16)
    returns it unchanged, for each byte and for each element of a decoded
    frame. *)
Theorem C10_sample_range (b : byte) (mulawData : list byte) :
  (-32124 <= decodeSample (byte_val b) <= 32124) /\
  JS.toInt16 (decodeSample (byte_val b)) = decodeSample (byte_val b) /\
  Forall (fun v => -32124 <= v <= 32124) (decodeMuLawToPCM16 mulawData).
Proof.
  split; [apply decodeSample_bounds, byte_val_range |].
  split; [apply (pcmOfByte_decodeSample b) |].
  rewrite decodeMuLawToPCM16_map. apply Forall_map, Forall_forall.
  intros c _. simpl. rewrite pcmOfByte_decodeSample.
  apply decodeSample_bounds, byte_val_range.
Qed.

Example sample_bounds_attained :
  decodeSample (byte_val x00) = -32124 /\ decodeSample (byte_val x80) = 32124.
Proof. split; reflexivity. Qed.

(** C4: for every byte the magnitude of the decoded sample is
    [(((mantissa << 3) + 0x84) << exponent) - 0x84], with mantissa and
    exponent read from the inverted byte; the decoder is a total function of
    its input (one sample per byte, for all 256 values, no error case). *)
Theorem C4_mulaw_expansion (b : byte) (mulawData : list byte) :
  Z.abs (pcmOfByte b) = expansion_magnitude b /\
  decodeMuLawToPCM16 mulawData = map pcmOfByte mulawData /\
  Forall2 (fun c v => Z.abs v = expansion_magnitude c)
          mulawData (decodeMuLawToPCM16 mulawData).
Proof.
  assert (Hone : forall c, Z.abs (pcmOfByte c) = expansion_magnitude c).
  { intros c. rewrite pcmOfByte_decodeSample.
    destruct (decodeSample_arith (byte_val c) (byte_val_range c)) as (Hm & He & ->).
    unfold expansion_magnitude.
    rewrite Z.shiftr_land. change (Z.shiftr 0x70 4) with 7.
    rewrite <- (Z.shiftr_land _ 0x70 4).
    set (m := Z.land (Z.lnot (byte_val c)) 0xF) in *.
    set (e := Z.shiftr (Z.land (Z.lnot (byte_val c)) 0x70) 4) in *.
    rewrite !Z.shiftl_mul_pow2 by lia. change (2 ^ 3) with 8.
    assert (1 <= 2 ^ e) by (apply (Z.pow_le_mono_r 2 0 e); lia).
    destruct (Z.land (Z.lnot (byte_val c)) 0x80 =? 0); nia. }
  split; [apply Hone |].
  split; [apply decodeMuLawToPCM16_map |].
  rewrite decodeMuLawToPCM16_map. apply Forall2_fmap_r, Forall_Forall2_diag.
  apply Forall_forall. intros c _. apply Hone.
Qed.

(** C1 as stated fails: byte [0x80] has its top bit set and decodes to the
    largest positive sample. *)
Lemma C1_counterexample :
  ~ (forall b : byte, Z.testbit (byte_val b) 7 = true -> pcmOfByte b < 0).
Proof.
  intros Hneg. specialize (Hneg x80 eq_refl).
  assert (Hval : pcmOfByte x80 = 32124) by reflexivity.
  lia.
Qed.

(** C1, amended: for every input byte whose top bit is set the decoded sample
    is non-negative; the sign bit tested by the decoder is the top bit of the
    inverted byte. *)
Theorem C1_top_bit_set_nonnegative (b : byte) :
  Z.testbit (byte_val b) 7 = true -> 0 <= pcmOfByte b.
Proof.
  intros Htop.
  destruct b; vm_compute in Htop; try discriminate Htop;
    vm_compute; discriminate.
Qed.

Lemma C1_top_bit_set_nonnegative_witness :
  Z.testbit (byte_val x80) 7 = true /\ 0 <= pcmOfByte x80.
Proof.
  split; [reflexivity | apply (C1_top_bit_set_nonnegative x80); reflexivity].
Defined.

(** The other half of the sign rule: a clear top bit gives a sample that is
    negative or zero. *)
Lemma top_bit_clear_nonpositive (b : byte) :
  Z.testbit (byte_val b) 7 = false -> pcmOfByte b <= 0.
Proof.
  intros Htop.
  destruct b; vm_compute in Htop; try discriminate Htop;
    vm_compute; discriminate.
Qed.

(** ** Packing *)

Lemma byte_val_of_Z (z : Z) : byte_val (byte_of_Z z) = z mod 256.
Proof.
  unfold byte_val, byte_of_Z.
  assert (Hlt : (Z.to_N (z mod 256) < 256)%N).
  { pose proof (Z.mod_pos_bound z 256). lia. }
  destruct (Byte.of_N (Z.to_N (z mod 256))) as [b|] eqn:Hb.
  - apply Byte.to_of_N in Hb. rewrite Hb.
    pose proof (Z.mod_pos_bound z 256). lia.
  - apply Byte.of_N_None_iff in Hb. lia.
Qed.

(** The two bytes written for a sample are its 16-bit two's complement,
    low byte first. *)
Lemma int16LE_little_endian (v : Z) :
  -32768 <= v <= 32767 ->
  exists lo hi, int16LE v = [lo; hi] /\
                byte_val lo + 256 * byte_val hi = v mod 65536.
Proof.
  intros Hv. eexists _, _. split; [reflexivity |].
  rewrite !byte_val_of_Z. unfold JS.shr.
  rewrite toInt32_small by lia. change (Z.land 8 31) with 8.
  rewrite Z.shiftr_div_pow2 by lia.
  change (2 ^ 8) with 256. change (2 ^ 32) with 4294967296.
  Z.div_mod_to_equations. lia.
Qed.

Lemma writeInt16LE_in_range (buf : list byte) (v : Z) (offset : nat) :
  -32768 <= v <= 32767 -> (offset + 2 <= length buf)%nat ->
  writeInt16LE buf v offset
  = Normal (<[S offset := byte_of_Z (JS.shr v 8)]> (<[offset := byte_of_Z v]> buf)).
Proof.
  intros Hv Hoff. unfold writeInt16LE.
  replace (-32768 <=? v) with true by (symmetry; apply Z.leb_le; lia).
  replace (v <=? 32767) with true by (symmetry; apply Z.leb_le; lia).
  replace (offset + 2 <=? length buf)%nat with true
    by (symmetry; apply Nat.leb_le; lia).
  reflexivity.
Qed.

(** The packing loop never throws on 16-bit samples and overwrites the whole
    buffer: nothing of what [allocUnsafe] found is left. *)
Lemma packLoop_spec (pcm16 : list Z) :
  Forall (fun v => -32768 <= v <= 32767) pcm16 ->
  forall (todo i : nat) (buf : list byte),
    (i + todo)%nat = length pcm16 ->
    length buf = (length pcm16 * 2)%nat ->
    packLoop pcm16 todo i buf
    = Normal (take (i * 2) buf ++ flat_map int16LE (drop i pcm16)).
Proof.
  intros Hrange.
  induction todo as [|todo IH]; intros i buf Hi Hlen; simpl.
  - rewrite drop_ge by lia. rewrite take_ge by lia. by rewrite app_nil_r.
  - assert (Hlt : (i < length pcm16)%nat) by lia.
    destruct (lookup_lt_is_Some_2 pcm16 i Hlt) as [v Hv].
    unfold sampleAt. rewrite Hv.
    rewrite writeInt16LE_in_range;
      [| exact (proj1 (Forall_lookup _ _) Hrange i v Hv) | lia].
    rewrite IH by (rewrite ?length_insert; lia).
    rewrite (drop_S pcm16 v i Hv). simpl.
    f_equal.
    change (S i * 2)%nat with (S (S (i * 2))).
    erewrite take_S_r
      by (apply list_lookup_insert_eq; rewrite length_insert; lia).
    rewrite take_insert_ge by lia.
    erewrite take_S_r by (apply list_lookup_insert_eq; lia).
    rewrite take_insert_ge by lia.
    by rewrite <- !app_assoc.
Qed.

Lemma flat_map_int16LE_length (pcm16 : list Z) :
  length (flat_map int16LE pcm16) = (2 * length pcm16)%nat.
Proof.
  induction pcm16 as [|v pcm16 IH]; simpl; [reflexivity | rewrite IH; lia].
Qed.

Lemma flat_map_int16LE_map (ulaw : list byte) :
  flat_map int16LE (map pcmOfByte ulaw)
  = flat_map (fun b => int16LE (pcmOfByte b)) ulaw.
Proof.
  induction ulaw as [|b ulaw IH]; simpl; [reflexivity | by rewrite IH].
Qed.

(** Decoding then packing a frame: the buffer handed to the sink. *)
Lemma decode_and_pack (junk0 : list byte) (ulaw : list byte) :
  length junk0 = (length (decodeMuLawToPCM16 ulaw) * 2)%nat ->
  packLoop (decodeMuLawToPCM16 ulaw) (length (decodeMuLawToPCM16 ulaw)) 0 junk0
  = Normal (flat_map (fun b => int16LE (pcmOfByte b)) ulaw).
Proof.
  intros Hlen. rewrite packLoop_spec; [| | lia | exact Hlen].
  - simpl. rewrite decodeMuLawToPCM16_map. f_equal.
    apply flat_map_int16LE_map.
  - rewrite decodeMuLawToPCM16_map. apply Forall_map, Forall_forall.
    intros c _. simpl. rewrite pcmOfByte_decodeSample.
    pose proof (decodeSample_bounds (byte_val c) (byte_val_range c)). lia.
Qed.

(** ** The connection: what each handler leaves alone *)

Ltac unfold_M :=
  unfold skip, log, get, modify, lift, try_catch in *;
  unfold mbind, mret, M_bind, M_ret in *.

Section Preservation.

Context {X : Type} (f : conn -> X).
Hypothesis f_record : forall c st, not_fetch c -> f (record_call c st) = f st.
Variable h : host.

Lemma preserves_mret {A} (a : A) : preserves f (mret a).
Proof. intros st. reflexivity. Qed.

Lemma preserves_skip : preserves f skip.
Proof. intros st. reflexivity. Qed.

Lemma preserves_get : preserves f get.
Proof. intros st. reflexivity. Qed.

Lemma preserves_lift {A} (c : completion A) : preserves f (lift c).
Proof. intros st. reflexivity. Qed.

Lemma preserves_log (l : log_line) : preserves f (log l).
Proof. intros st. by apply f_record. Qed.

Lemma preserves_extcall (c : call) : not_fetch c -> preserves f (extcall h c).
Proof. intros Hc st. by apply f_record. Qed.

Lemma preserves_modify (g : conn -> conn) :
  (forall st, f (g st) = f st) -> preserves f (modify g).
Proof. intros Hg st. apply Hg. Qed.

Lemma preserves_bind {A B} (m : M A) (k : A -> M B) :
  preserves f m -> (forall a, preserves f (k a)) -> preserves f (m ≫= k).
Proof.
  intros Hm Hk st. unfold mbind, M_bind.
  specialize (Hm st). destruct (m st) as [[a|e] st']; simpl in *.
  - rewrite Hk. exact Hm.
  - exact Hm.
Qed.

Lemma preserves_lift_bind {A B} (c : completion A) (k : A -> M B) :
  (forall a, c = Normal a -> preserves f (k a)) -> preserves f (lift c ≫= k).
Proof.
  intros Hk st. unfold mbind, M_bind, lift. destruct c as [a|e]; simpl.
  - by apply Hk.
  - reflexivity.
Qed.

Lemma preserves_try_catch (m handler : M unit) :
  preserves f m -> preserves f handler -> preserves f (try_catch m handler).
Proof.
  intros Hm Hh st. unfold try_catch.
  specialize (Hm st). destruct (m st) as [[a|e] st']; simpl in *.
  - exact Hm.
  - rewrite Hh. exact Hm.
Qed.

Ltac preserve :=
  repeat first
    [ apply preserves_skip | apply preserves_get | apply preserves_lift
    | apply preserves_log | apply preserves_extcall; exact I
    | apply preserves_mret
    | apply preserves_bind | apply preserves_try_catch
    | progress intros
    | match goal with
      | |- preserves _ (match ?x with _ => _ end) => destruct x
      end ].

Lemma preserves_media_case (data : json) : preserves f (media_case h data).
Proof. unfold media_case. preserve. Qed.

Lemma preserves_stop_case : preserves f (stop_case h).
Proof. unfold stop_case. preserve. Qed.

Lemma preserves_on_close : preserves f (on_close h).
Proof. unfold on_close. preserve. Qed.

Lemma preserves_recognizing (text : option string) :
  preserves f (recognizing text).
Proof. unfold recognizing. preserve. Qed.

Lemma preserves_fetch_settled (fulfilled : bool) :
  preserves f (fetch_settled fulfilled).
Proof. unfold fetch_settled. preserve. Qed.

Lemma preserves_run_continuation (k : continuation) :
  preserves f (run_continuation h k).
Proof. unfold run_continuation. preserve. Qed.

(** [rec.recognized] assigns [lastSentTime] and calls [fetch]; an
    observation blind to both is kept. *)
Lemma preserves_recognized (text : option string) (now : Z) (iso : string) :
  (forall t st, f (set_lastSentTime t st) = f st) ->
  (forall c st, f (record_call c st) = f st) ->
  preserves f (recognized h text now iso).
Proof.
  intros Hlast Hany. unfold recognized. preserve.
  - apply preserves_modify. intros st. apply Hlast.
  - intros st. apply Hany.
Qed.

(** Every event but a [start] message. *)
Lemma preserves_dispatch_non_start (ev : event) :
  (forall t st, f (set_lastSentTime t st) = f st) ->
  (forall c st, f (record_call c st) = f st) ->
  is_start ev = false -> preserves f (dispatch h ev).
Proof.
  intros Hlast Hany Hns. destruct ev as [[data|]| | | | | | | |]; simpl.
  - unfold on_message. apply preserves_lift_bind. intros ev Hev.
    assert (Hev' : is_str ev "start" = false).
    { destruct data; simpl in Hev; try discriminate Hev;
        injection Hev as <-; first [exact Hns | reflexivity]. }
    rewrite Hev'.
    destruct (is_str ev "media"); [apply preserves_media_case |].
    destruct (is_str ev "stop"); [apply preserves_stop_case | apply preserves_skip].
  - apply preserves_skip.
  - apply preserves_on_close.
  - apply preserves_log.
  - apply preserves_recognizing.
  - by apply preserves_recognized.
  - apply preserves_log.
  - apply preserves_log.
  - apply preserves_run_continuation.
  - apply preserves_fetch_settled.
Qed.


(** *** Observations blind to the assignments of a [start] message *)

Section StartToo.

Hypothesis f_bump : forall st, f (bump st) = f st.
Hypothesis f_callSid : forall v st, f (set_callSid v st) = f st.
Hypothesis f_rec : forall r st, f (set_rec r st) = f st.
Hypothesis f_pushStream : forall ps st, f (set_pushStream ps st) = f st.

Lemma preserves_fresh : preserves f fresh.
Proof. intros st. apply f_bump. Qed.

Lemma preserves_startRecognizer : preserves f (startRecognizer h).
Proof.
  unfold startRecognizer.
  repeat first
    [ apply preserves_bind | apply preserves_fresh
    | apply preserves_extcall; exact I
    | apply preserves_modify; intros st; first [apply f_rec | apply f_pushStream]
    | progress intros ].
Qed.

Lemma preserves_start_case (data : json) : preserves f (start_case h data).
Proof.
  unfold start_case.
  apply preserves_bind; [apply preserves_modify; intros st; apply f_callSid |].
  intros _. apply preserves_bind; [apply preserves_get |].
  intros st. apply preserves_bind; [apply preserves_log |].
  intros _. apply preserves_startRecognizer.
Qed.

Lemma preserves_on_message (parsed : option json) : preserves f (on_message h parsed).
Proof.
  unfold on_message. destruct parsed as [data|]; [| apply preserves_skip].
  apply preserves_lift_bind. intros ev _.
  destruct (is_str ev "start"); [apply preserves_start_case |].
  destruct (is_str ev "media"); [apply preserves_media_case |].
  destruct (is_str ev "stop"); [apply preserves_stop_case | apply preserves_skip].
Qed.

(** Every event but a final result. *)
Lemma preserves_dispatch_non_recognized (ev : event) :
  is_recognized ev = false -> preserves f (dispatch h ev).
Proof.
  intros Hnr. destruct ev; simpl in *; try discriminate Hnr.
  - apply preserves_on_message.
  - apply preserves_on_close.
  - apply preserves_log.
  - apply preserves_recognizing.
  - apply preserves_log.
  - apply preserves_log.
  - apply preserves_run_continuation.
  - apply preserves_fetch_settled.
Qed.

Lemma preserves_run_non_recognized (evs : list event) :
  Forall (fun ev => is_recognized ev = false) evs ->
  forall st, f (snd (run h evs st)) = f st.
Proof.
  intros Hnr. induction Hnr as [|ev evs Hev _ IH]; intros st; simpl.
  - reflexivity.
  - pose proof (preserves_dispatch_non_recognized ev Hev st) as Hstep.
    destruct (dispatch h ev st) as [[a|e] st']; simpl in *.
    + rewrite IH. exact Hstep.
    + exact Hstep.
Qed.

End StartToo.

End Preservation.

(** ** The media path *)

Lemma allocUnsafe_length (h : host) (n : nat) : length (allocUnsafe h n) = n.
Proof. unfold allocUnsafe. by rewrite length_map, length_seq. Qed.

(** With a sink and a truthy payload that [Buffer.from] accepts, the [media]
    case makes one call: the write of the packed frame. *)
Lemma media_case_feeds (h : host) (st : conn) (ps : nat) (data p : json)
      (ulaw : list byte) :
  pushStream st = Some ps ->
  getPropOpt (getPropOpt (Some data) "media") "payload" = Some p ->
  truthy (Some p) = true ->
  Buffer_from h p = Normal ulaw ->
  media_case h data st
  = extcall h (pushStream_write ps (flat_map (fun b => int16LE (pcmOfByte b)) ulaw)) st.
Proof.
  intros Hps Hp Htruthy Hfrom. unfold media_case. unfold_M.
  rewrite Hps, Hp, Htruthy, Hfrom.
  rewrite decode_and_pack by (by rewrite allocUnsafe_length).
  reflexivity.
Qed.


Lemma on_message_media (h : host) (st : conn) (data : json) :
  getProp data "event" = Normal (Some (JStr "media")) ->
  on_message h (Some data) st = media_case h data st.
Proof. intros Hev. unfold on_message. unfold_M. by rewrite Hev. Qed.

(** C5: in the streaming state (a push stream exists), a media message whose
    payload decodes to the bytes [ulaw] makes the handler write one buffer to
    the sink: the decoded samples of [ulaw] in order, two bytes each, low byte
    first, so [2 * length ulaw] bytes; the variables of the session are left
    as they were. *)
Theorem C5_media_frame_packed (h : host) (st : conn) (ps : nat) (data p : json)
        (ulaw : list byte) :
  pushStream st = Some ps ->
  getProp data "event" = Normal (Some (JStr "media")) ->
  getPropOpt (getPropOpt (Some data) "media") "payload" = Some p ->
  truthy (Some p) = true ->
  Buffer_from h p = Normal ulaw ->
  let buf := flat_map (fun b => int16LE (pcmOfByte b)) ulaw in
  let st' := snd (on_message h (Some data) st) in
  history st' = history st ++ [pushStream_write ps buf] /\
  length buf = (2 * length ulaw)%nat /\
  session_vars st' = session_vars st /\
  Forall (fun b => exists lo hi,
              int16LE (pcmOfByte b) = [lo; hi] /\
              byte_val lo + 256 * byte_val hi = pcmOfByte b mod 65536) ulaw.
Proof.
  intros Hps Hev Hp Htruthy Hfrom buf st'. subst st'.
  rewrite (on_message_media h st data Hev).
  rewrite (media_case_feeds h st ps data p ulaw Hps Hp Htruthy Hfrom).
  split; [reflexivity |]. split; [| split; [reflexivity |]].
  - subst buf. rewrite <- flat_map_int16LE_map, flat_map_int16LE_length.
    by rewrite length_map.
  - apply Forall_forall. intros b _. apply int16LE_little_endian.
    rewrite pcmOfByte_decodeSample.
    pose proof (decodeSample_bounds (byte_val b) (byte_val_range b)). lia.
Qed.

Lemma C5_media_frame_packed_witness :
  pushStream streaming = Some 0%nat /\
  Buffer_from (quiet_host "") (JStr example_frame) = Normal [xff; x7f; x00; x80] /\
  history (snd (on_message (quiet_host "") (Some (media_message example_frame)) streaming))
  = history streaming
    ++ [pushStream_write 0 [x00; x00; x00; x00; x84; x82; x7c; x7d]].
Proof.
  split; [reflexivity | split; [reflexivity |]].
  exact (proj1 (C5_media_frame_packed (quiet_host "") streaming 0%nat
                  (media_message example_frame) (JStr example_frame)
                  [xff; x7f; x00; x80]
                  eq_refl eq_refl eq_refl eq_refl eq_refl)).
Defined.

(** ** Frames before [start] *)

(** The guard of the media case tests that [pushStream] was assigned, not
    that the stream is still open: a media message dispatched after the close
    listener would be decoded and written.  The transport delivers no message
    after [close], so the listener never meets this order. *)
Example media_guard_tests_assignment_only :
  sink_closes (history torn_down) = [0%nat] /\
  writes (history torn_down) = [] /\
  writes (history (snd (dispatch (quiet_host "") example_media torn_down)))
  = [[x00; x00; x00; x00; x84; x82; x7c; x7d]].
Proof. repeat split. Qed.


(** ** Teardown *)

Ltac case_throws :=
  repeat (simpl;
          match goal with
          | |- context [throws ?h ?l ?c] => destruct (throws h l c)
          end);
  simpl.

Ltac split_history :=
  unfold stop_requests, sink_closes, released, posts, writes, constructed;
  rewrite ?omap_app; simpl; rewrite ?app_nil_r, <- ?app_assoc.

(** The [close] listener never lets an exception out: both library calls sit
    in a [try] of their own. *)
Lemma on_close_returns (h : host) (st : conn) : fst (on_close h st) = Normal tt.
Proof.
  unfold on_close. unfold_M. unfold extcall.
  destruct st as [sid [r|] [ps|] last hist n]; case_throws; reflexivity.
Qed.

(** What one run of the [close] listener adds to the history. *)
Lemma on_close_history (h : host) (st : conn) :
  history (snd (on_close h st))
  = history st
    ++ [console LogClosed]
    ++ match pushStream st with Some ps => [pushStream_close ps] | None => [] end
    ++ match rec st with
       | Some r => [stopContinuousRecognitionAsync r CloseRec CloseRec]
       | None => []
       end.
Proof.
  unfold on_close. unfold_M. unfold extcall.
  destruct st as [sid [r|] [ps|] last hist n]; case_throws;
    rewrite <- ?app_assoc; reflexivity.
Qed.

Lemma on_close_vars (h : host) (st : conn) :
  session_vars (snd (on_close h st)) = session_vars st.
Proof. apply (preserves_on_close session_vars (fun _ _ _ => eq_refl) h). Qed.

(** The continuation of a stop request releases the recognizer the session
    holds when it runs. *)
Lemma run_CloseRec_history (h : host) (st : conn) (r : nat) :
  rec st = Some r ->
  history (snd (run_continuation h CloseRec st)) = history st ++ [recognizer_close r].
Proof.
  intros Hrec. unfold run_continuation. unfold_M. unfold extcall. simpl.
  rewrite Hrec. reflexivity.
Qed.

(** C7 as stated fails on "exactly once": the listener keeps no mark of
    having run.  Run twice on a streaming connection it closes the push stream
    twice and requests two stops, and the two continuations release the
    recognizer twice. *)
Lemma C7_counterexample :
  fst (run (quiet_host "") [WsClose; WsClose; Settled CloseRec; Settled CloseRec] streaming)
  = Normal tt /\
  sink_closes (history (snd (run (quiet_host "") [WsClose; WsClose] streaming)))
  = [0%nat; 0%nat] /\
  released (history (snd (run (quiet_host "")
                            [WsClose; WsClose; Settled CloseRec; Settled CloseRec]
                            streaming)))
  = [1%nat; 1%nat].
Proof. repeat split. Qed.

(** C7, amended: the [close] listener never raises, neither the first time
    nor when it is run again; each run closes the push stream the session
    holds and asks the recognizer it holds to stop, with the same release,
    [rec.close()], as success and as failure continuation, so whichever of the
    two the SDK calls releases that recognizer; after one run and one
    continuation the recognizer has been released once. *)
Theorem C7_teardown (h : host) (st : conn) :
  fst (on_close h st) = Normal tt /\
  fst (on_close h (snd (on_close h st))) = Normal tt /\
  session_vars (snd (on_close h st)) = session_vars st /\
  sink_closes (history (snd (on_close h st)))
  = sink_closes (history st)
    ++ match pushStream st with Some ps => [ps] | None => [] end /\
  stop_requests (history (snd (on_close h st)))
  = stop_requests (history st)
    ++ match rec st with Some r => [(r, CloseRec, CloseRec)] | None => [] end /\
  forall r, rec st = Some r ->
            released (history (snd (run_continuation h CloseRec (snd (on_close h st)))))
            = released (history st) ++ [r].
Proof.
  split; [apply on_close_returns |].
  split; [apply on_close_returns |].
  split; [apply on_close_vars |].
  split; [| split].
  - rewrite on_close_history. split_history.
    destruct (pushStream st), (rec st); simpl; by rewrite ?app_nil_r.
  - rewrite on_close_history. split_history.
    destruct (pushStream st), (rec st); simpl; by rewrite ?app_nil_r.
  - intros r Hrec.
    assert (Hrec' : rec (snd (on_close h st)) = Some r).
    { pose proof (on_close_vars h st) as Hvars. unfold session_vars in Hvars.
      congruence. }
    rewrite (run_CloseRec_history h _ r Hrec'), on_close_history, Hrec.
    split_history.
    destruct (pushStream st); simpl; reflexivity.
Qed.

(** ** Messages that are not control messages *)

(** A message that does not parse, or whose [event] is read and is none of
    the three names, is dropped. *)
Lemma unrecognized_message_discarded (h : host) (parsed : option json) (st : conn) :
  match parsed with
  | None => True
  | Some data =>
      exists ev, getProp data "event" = Normal ev /\
                 is_str ev "start" = false /\
                 is_str ev "media" = false /\
                 is_str ev "stop" = false
  end ->
  on_message h parsed st = (Normal tt, st).
Proof.
  destruct parsed as [data|]; [| reflexivity].
  intros (ev & Hev & Hstart & Hmedia & Hstop).
  unfold on_message. unfold_M. by rewrite Hev, Hstart, Hmedia, Hstop.
Qed.

Example scalar_messages_discarded (h : host) (st : conn) :
  on_message h (Some (JNum 5)) st = (Normal tt, st) /\
  on_message h (Some (JObj [])) st = (Normal tt, st) /\
  on_message h (Some (JObj [("event", JStr "mark")]%string)) st = (Normal tt, st).
Proof. repeat split. Qed.

(** C8 fails at the text [null]: [JSON.parse] returns [null], the read of
    [data.event] throws, and the exception leaves the listener. *)
Theorem C8_null_message_throws (h : host) (st : conn) :
  on_message h (Some JNull) st = (Throw TypeError, st) /\
  fst (run h [WsMessage (Some JNull)] st) = Throw TypeError.
Proof. split; reflexivity. Qed.

(** ** Recognizer results *)

(** C9: an interim result, whatever its text, makes the handler return with
    the session variables (the debounce timestamp among them) unchanged; the
    history gains at most one console line, so no webhook request is made. *)
Theorem C9_interim_not_forwarded (text : option string) (st : conn) :
  fst (recognizing text st) = Normal tt /\
  session_vars (snd (recognizing text st)) = session_vars st /\
  lastSentTime (snd (recognizing text st)) = lastSentTime st /\
  posts (history (snd (recognizing text st))) = posts (history st) /\
  (history (snd (recognizing text st)) = history st \/
   exists s, text = Some s /\
             history (snd (recognizing text st)) = history st ++ [console (LogInterim s)]).
Proof.
  unfold recognizing. unfold_M.
  destruct text as [s|]; [destruct (truthy_text (Some s)) |]; simpl;
    repeat split; try (by left); try (right; by exists s).
  split_history. reflexivity.
Qed.

(** *** Final results and the debounce *)

Lemma truthy_text_nonempty (s : string) : s <> ""%string -> truthy_text (Some s) = true.
Proof.
  intros Hs. simpl. apply negb_true_iff. by apply String.eqb_neq.
Qed.

Lemma posts_app (l1 l2 : list call) : posts (l1 ++ l2) = posts l1 ++ posts l2.
Proof. apply omap_app. Qed.

(** A final result that comes too soon: two console lines and nothing else. *)
Lemma recognized_dropped (h : host) (st : conn) (s iso : string) (now : Z) :
  s <> ""%string -> now - lastSentTime st < 2000 ->
  recognized h (Some s) now iso st
  = (Normal tt, record_call (console LogDebounce) (record_call (console (LogFinal s)) st)).
Proof.
  intros Hs Hsoon. unfold recognized. rewrite (truthy_text_nonempty s Hs).
  unfold_M. simpl.
  replace (now - lastSentTime st <? 2000) with true
    by (symmetry; apply Z.ltb_lt; lia).
  reflexivity.
Qed.

(** A final result that is accepted when a webhook is configured: the
    timestamp is assigned, then [fetch] is called; the state below is the one
    at the [await]. *)
Lemma recognized_accepted (h : host) (st : conn) (s iso : string) (now : Z) :
  N8N h <> ""%string -> s <> ""%string -> 2000 <= now - lastSentTime st ->
  let st' := snd (recognized h (Some s) now iso st) in
  fst (recognized h (Some s) now iso st) = Normal tt /\
  lastSentTime st' = now /\
  callSid st' = callSid st /\
  posts (history st') = posts (history st) ++ [request h st s iso].
Proof.
  intros Hurl Hs Hlate. unfold recognized. rewrite (truthy_text_nonempty s Hs).
  unfold_M. unfold extcall. simpl.
  replace (now - lastSentTime st <? 2000) with false
    by (symmetry; apply Z.ltb_ge; lia).
  replace (negb (N8N h =? "")%string) with true
    by (symmetry; apply negb_true_iff; by apply String.eqb_neq).
  case_throws; repeat split; split_history; reflexivity.
Qed.

(** Without a webhook address an accepted result moves the timestamp and
    submits nothing. *)
Lemma recognized_accepted_no_webhook (h : host) (st : conn) (s iso : string) (now : Z) :
  N8N h = ""%string -> s <> ""%string -> 2000 <= now - lastSentTime st ->
  recognized h (Some s) now iso st
  = (Normal tt, set_lastSentTime now (record_call (console (LogFinal s)) st)).
Proof.
  intros Hurl Hs Hlate. unfold recognized. rewrite (truthy_text_nonempty s Hs).
  unfold_M. simpl.
  replace (now - lastSentTime st <? 2000) with false
    by (symmetry; apply Z.ltb_ge; lia).
  rewrite Hurl. reflexivity.
Qed.

(** C3 as stated fails when no webhook address is configured ([N8N] is the
    empty string, its default): two final results three seconds apart are both
    accepted, and neither is forwarded. *)
Lemma C3_counterexample :
  posts (history (snd (run (quiet_host "")
                         [Recognized (Some "hello"%string) 1700000000000 "t1";
                          Recognized (Some "world"%string) 1700000003000 "t2"]
                         connected)))
  = [] /\
  lastSentTime (snd (run (quiet_host "")
                       [Recognized (Some "hello"%string) 1700000000000 "t1";
                        Recognized (Some "world"%string) 1700000003000 "t2"]
                       connected))
  = 1700000003000.
Proof. split; reflexivity. Qed.

(** C3, amended: with a webhook address configured, take two non-empty final
    results on one connection, the first of them accepted, with any events
    other than final results between them.  The first is submitted to the
    webhook and its time is the session's [lastSentTime] as soon as the
    handler reaches the [await], before the request settles.  If the second
    comes less than 2000 ms after the first it is dropped: no request, the
    session variables untouched, two console lines.  If it comes 2000 ms or
    more after, it is submitted too and its time becomes [lastSentTime]. *)
Theorem C3_debounce (h : host) (st : conn) (mid : list event)
        (s1 s2 iso1 iso2 : string) (now1 now2 : Z) :
  N8N h <> ""%string -> s1 <> ""%string -> s2 <> ""%string ->
  2000 <= now1 - lastSentTime st ->
  Forall (fun ev => is_recognized ev = false) mid ->
  let st1 := snd (recognized h (Some s1) now1 iso1 st) in
  let st1' := snd (run h mid st1) in
  let st2 := snd (recognized h (Some s2) now2 iso2 st1') in
  lastSentTime st1 = now1 /\
  posts (history st1) = posts (history st) ++ [request h st s1 iso1] /\
  (now2 - now1 < 2000 ->
   posts (history st2) = posts (history st) ++ [request h st s1 iso1] /\
   session_vars st2 = session_vars st1' /\
   history st2 = history st1' ++ [console (LogFinal s2); console LogDebounce]) /\
  (2000 <= now2 - now1 ->
   posts (history st2)
   = posts (history st) ++ [request h st s1 iso1; request h st1' s2 iso2] /\
   lastSentTime st2 = now2).
Proof.
  intros Hurl Hs1 Hs2 Hfirst Hmid st1 st1' st2.
  destruct (recognized_accepted h st s1 iso1 now1 Hurl Hs1 Hfirst)
    as (_ & Hlast1 & _ & Hposts1).
  fold st1 in Hlast1, Hposts1.
  assert (Hframe : (lastSentTime st1', posts (history st1'))
                   = (lastSentTime st1, posts (history st1))).
  { subst st1'.
    apply (preserves_run_non_recognized
             (fun st => (lastSentTime st, posts (history st)))); try done.
    intros c st0 Hc. simpl. f_equal. split_history.
    destruct c; simpl in *; rewrite ?app_nil_r; done. }
  injection Hframe as Hlast1' Hposts1'.
  split; [exact Hlast1 |]. split; [exact Hposts1 |]. split.
  - intros Hsoon. subst st2.
    rewrite recognized_dropped by (rewrite ?Hlast1', ?Hlast1; lia || done).
    simpl. split; [| split].
    + rewrite !posts_app. simpl. by rewrite !app_nil_r, Hposts1', Hposts1.
    + reflexivity.
    + by rewrite <- app_assoc.
  - intros Hlate.
    destruct (recognized_accepted h st1' s2 iso2 now2 Hurl Hs2)
      as (_ & Hlast2 & _ & Hposts2); [rewrite Hlast1', Hlast1; lia |].
    fold st2 in Hlast2, Hposts2.
    split; [| exact Hlast2].
    rewrite Hposts2, Hposts1', Hposts1. by rewrite <- app_assoc.
Qed.

Lemma C3_debounce_witness :
  N8N (quiet_host "https://n8n.example/webhook") <> ""%string /\
  2000 <= 1700000000000 - lastSentTime connected /\
  lastSentTime (snd (recognized (quiet_host "https://n8n.example/webhook")
                       (Some "hello"%string) 1700000000000 "t1" connected))
  = 1700000000000.
Proof.
  split; [discriminate | split; [simpl; lia |]].
  refine (proj1 (C3_debounce (quiet_host "https://n8n.example/webhook") connected
                   [example_media; FetchSettled true]
                   "hello" "world" "t1" "t2" 1700000000000 1700000001500
                   _ _ _ _ _)).
  - discriminate.
  - discriminate.
  - discriminate.
  - simpl. lia.
  - repeat constructor.
Defined.

Example debounce_run :
  posts (history (snd (run (quiet_host "https://n8n.example/webhook")
                         [example_start;
                          Recognized (Some "hello"%string) 1700000000000 "t1";
                          Recognized (Some "hello."%string) 1700000001999 "t2";
                          Recognized (Some "bye"%string) 1700000002000 "t3"]
                         connected)))
  = [("https://n8n.example/webhook"%string,
      {| body_callSid := JStr "CA123"; body_text := "hello"; body_timestamp := "t1" |});
     ("https://n8n.example/webhook"%string,
      {| body_callSid := JStr "CA123"; body_text := "bye"; body_timestamp := "t3" |})].
Proof. reflexivity. Qed.

(** ** One recognizer per call *)

(** C2 fails on a second start message: [startRecognizer] runs again and
    overwrites [rec] and [pushStream]; the first recognizer was started and is
    neither stopped nor released, then or at teardown. *)
Theorem C2_second_start_leaves_two_live :
  fst (run (quiet_host "") [example_start; example_start] connected) = Normal tt /\
  live_recognizers
    (history (snd (run (quiet_host "") [example_start; example_start] connected)))
  = [1%nat; 3%nat] /\
  rec (snd (run (quiet_host "") [example_start; example_start] connected)) = Some 3%nat /\
  live_recognizers
    (history (snd (run (quiet_host "")
                     [example_start; example_start; WsClose; Settled CloseRec]
                     connected)))
  = [1%nat].
Proof. repeat split. Qed.

(** One start message leaves one. *)
Example one_start_one_recognizer :
  live_recognizers (history streaming) = [1%nat] /\
  live_recognizers
    (history (snd (run (quiet_host "") [Settled CloseRec] torn_down))) = [].
Proof. split; reflexivity. Qed.

(** * Further properties of the code *)

(** ** The decoder as a code table *)

(** A property of all pairs of byte values, checked by computation. *)
Lemma all_pairs_spec (P : Z -> Z -> Z -> Z -> bool) :
  all_pairs P = true ->
  forall x y, 0 <= x < 256 -> 0 <= y < 256 ->
              P x (decodeSample x) y (decodeSample y) = true.
Proof.
  unfold all_pairs. intros Hall x y Hx Hy.
  assert (Hin : forall z, 0 <= z < 256 ->
                          In (z, decodeSample z)
                             (map (fun x => (x, decodeSample x)) byte_values)).
  { intros z Hz. apply in_map_iff. exists z. split; [reflexivity |].
    apply in_map_iff. exists (Z.to_nat z). split; [lia |].
    apply in_seq. lia. }
  rewrite forallb_forall in Hall. specialize (Hall _ (Hin x Hx)).
  rewrite forallb_forall in Hall. exact (Hall _ (Hin y Hy)).
Qed.

Lemma magnitude_order_table : all_pairs magnitude_order_check = true.
Proof. vm_compute. reflexivity. Qed.

Lemma injective_table : all_pairs injective_check = true.
Proof. vm_compute. reflexivity. Qed.

Lemma byte_val_inj (b1 b2 : byte) : byte_val b1 = byte_val b2 -> b1 = b2.
Proof.
  unfold byte_val. intros Heq.
  assert (HN : Byte.to_N b1 = Byte.to_N b2) by lia.
  pose proof (Byte.of_to_N b1) as H1. pose proof (Byte.of_to_N b2) as H2.
  congruence.
Qed.

(** Flipping the top bit of the code negates the sample. *)
Theorem flip_top_negates (b : byte) : pcmOfByte (flip_top b) = - pcmOfByte b.
Proof. destruct b; vm_compute; reflexivity. Qed.

(** The sample is zero for the two silence codes and for no other. *)
Theorem zero_iff_silence (b : byte) : pcmOfByte b = 0 <-> b = xff \/ b = x7f.
Proof.
  split.
  - intros Hz. destruct b; vm_compute in Hz; try discriminate Hz; auto.
  - intros [-> | ->]; reflexivity.
Qed.

(** Among codes with the same top bit, a larger code is a strictly smaller
    magnitude. *)
Theorem magnitude_decreases_with_code (b1 b2 : byte) :
  Z.testbit (byte_val b1) 7 = Z.testbit (byte_val b2) 7 ->
  byte_val b1 < byte_val b2 ->
  Z.abs (pcmOfByte b2) < Z.abs (pcmOfByte b1).
Proof.
  intros Hbit Hlt. rewrite !pcmOfByte_decodeSample.
  pose proof (all_pairs_spec magnitude_order_check magnitude_order_table
                (byte_val b1) (byte_val b2)
                (byte_val_range b1) (byte_val_range b2)) as Hcell.
  unfold magnitude_order_check in Hcell.
  rewrite Hbit, eqb_reflx, andb_true_r in Hcell.
  replace (byte_val b1 <? byte_val b2) with true in Hcell
    by (symmetry; apply Z.ltb_lt; lia).
  apply Z.ltb_lt. exact Hcell.
Qed.

Lemma magnitude_decreases_with_code_witness :
  Z.testbit (byte_val x80) 7 = Z.testbit (byte_val x81) 7 /\
  byte_val x80 < byte_val x81 /\
  Z.abs (pcmOfByte x81) < Z.abs (pcmOfByte x80).
Proof.
  split; [reflexivity | split; [reflexivity |]].
  apply (magnitude_decreases_with_code x80 x81); reflexivity.
Defined.

(** Two codes decode to the same sample only if they are the same code or
    the two codes of zero. *)
Theorem decode_injective_but_zero (b1 b2 : byte) :
  pcmOfByte b1 = pcmOfByte b2 -> b1 = b2 \/ pcmOfByte b1 = 0.
Proof.
  rewrite !pcmOfByte_decodeSample. intros Heq.
  pose proof (all_pairs_spec injective_check injective_table
                (byte_val b1) (byte_val b2)
                (byte_val_range b1) (byte_val_range b2)) as Hcell.
  unfold injective_check in Hcell.
  replace (decodeSample (byte_val b1) =? decodeSample (byte_val b2)) with true
    in Hcell by (symmetry; apply Z.eqb_eq; exact Heq).
  apply orb_true_iff in Hcell as [Hsame | Hzero].
  - left. apply byte_val_inj. by apply Z.eqb_eq.
  - right. by apply Z.eqb_eq.
Qed.

Lemma decode_injective_but_zero_witness :
  pcmOfByte xff = pcmOfByte x7f /\ (xff = x7f \/ pcmOfByte xff = 0).
Proof.
  split; [reflexivity |].
  apply (decode_injective_but_zero xff x7f). reflexivity.
Defined.

(** Every sample is a multiple of four: the two low bits of the 16-bit
    sample carry nothing. *)
Theorem sample_multiple_of_4 (b : byte) : (4 | pcmOfByte b).
Proof.
  rewrite pcmOfByte_decodeSample.
  destruct (decodeSample_arith (byte_val b) (byte_val_range b)) as (_ & _ & ->).
  set (m := Z.land (Z.lnot (byte_val b)) 0xF).
  set (p := 2 ^ Z.shiftr (Z.land (Z.lnot (byte_val b)) 0x70) 4).
  destruct (Z.land (Z.lnot (byte_val b)) 0x80 =? 0).
  - exists ((2 * m + 33) * p - 33). lia.
  - exists (33 - (2 * m + 33) * p). lia.
Qed.

(** ** Media frames in sequence *)

Lemma dispatch_media_event (h : host) (p : json) (st : conn) :
  dispatch h (media_event p) st
  = media_case h (JObj [("event", JStr "media"); ("media", JObj [("payload", p)])]%string) st.
Proof. apply on_message_media. reflexivity. Qed.

Lemma media_event_feeds (h : host) (st : conn) (ps : nat) (p : json)
      (ulaw : list byte) :
  pushStream st = Some ps ->
  truthy (Some p) = true ->
  Buffer_from h p = Normal ulaw ->
  dispatch h (media_event p) st
  = extcall h (pushStream_write ps (pack_frame ulaw)) st.
Proof.
  intros Hps Htruthy Hfrom. rewrite dispatch_media_event.
  by apply (media_case_feeds h st ps _ p ulaw).
Qed.

Lemma writes_app (l1 l2 : list call) : writes (l1 ++ l2) = writes l1 ++ writes l2.
Proof. apply omap_app. Qed.

Lemma writes_of_frames (ps : nat) (frames : list (json * list byte)) :
  writes (map (fun f => pushStream_write ps (pack_frame (snd f))) frames)
  = map (fun f => pack_frame (snd f)) frames.
Proof.
  induction frames as [|f frames IH]; [reflexivity |].
  simpl. unfold writes in *. simpl. by rewrite IH.
Qed.



(** A run of media messages on a connection with a sink, on a host whose
    writes return: one write per message, nothing else. *)
Lemma run_media_frames (h : host) (ps : nat) (frames : list (json * list byte)) :
  (forall l buf, throws h l (pushStream_write ps buf) = false) ->
  Forall (fun f => truthy (Some (fst f)) = true /\ Buffer_from h (fst f) = Normal (snd f))
         frames ->
  forall st, pushStream st = Some ps ->
    run h (map (fun f => media_event (fst f)) frames) st
    = (Normal tt,
       {| callSid := callSid st; rec := rec st; pushStream := pushStream st;
          lastSentTime := lastSentTime st;
          history := history st
                       ++ map (fun f => pushStream_write ps (pack_frame (snd f))) frames;
          next_obj := next_obj st |}).
Proof.
  intros Hquiet Hframes.
  induction Hframes as [|[p ulaw] frames [Htruthy Hfrom] _ IH]; intros st Hps.
  - simpl. rewrite app_nil_r. by destruct st.
  - cbn [map run fst snd].
    rewrite (media_event_feeds h st ps p ulaw Hps Htruthy Hfrom).
    unfold extcall. rewrite Hquiet.
    rewrite IH by exact Hps. simpl. by rewrite <- app_assoc.
Qed.

(** Frames are fed in arrival order, one write each.  Take a connection with
    a push stream, a host on which the writes to it return, and a run of media
    messages each of whose payloads is truthy and is decoded by [Buffer.from]
    (it returns bytes, it does not throw).  Then every listener returns
    normally, the buffers written are the packed decodings of the payloads,
    in the order of the messages, and the session variables are what they
    were. *)
Theorem media_frames_fed_in_order (h : host) (ps : nat)
        (frames : list (json * list byte)) (st : conn) :
  (forall l buf, throws h l (pushStream_write ps buf) = false) ->
  Forall (fun f => truthy (Some (fst f)) = true /\ Buffer_from h (fst f) = Normal (snd f))
         frames ->
  pushStream st = Some ps ->
  fst (run h (map (fun f => media_event (fst f)) frames) st) = Normal tt /\
  writes (history (snd (run h (map (fun f => media_event (fst f)) frames) st)))
  = writes (history st) ++ map (fun f => pack_frame (snd f)) frames /\
  session_vars (snd (run h (map (fun f => media_event (fst f)) frames) st))
  = session_vars st.
Proof.
  intros Hquiet Hframes Hps.
  rewrite (run_media_frames h ps frames Hquiet Hframes st Hps). simpl.
  split; [reflexivity | split; [| reflexivity]].
  by rewrite writes_app, writes_of_frames.
Qed.

Lemma media_frames_fed_in_order_witness :
  pushStream streaming = Some 0%nat /\
  writes (history (snd (run (quiet_host "")
                          (map (fun f => media_event (fst f))
                               [(JStr "/38=", [xff; x7f]); (JStr "AIA=", [x00; x80])])
                          streaming)))
  = [[x00; x00; x00; x00]; [x84; x82; x7c; x7d]].
Proof.
  split; [reflexivity |].
  refine (proj1 (proj2 (media_frames_fed_in_order (quiet_host "") 0%nat
                          [(JStr "/38=", [xff; x7f]); (JStr "AIA=", [x00; x80])]
                          streaming _ _ _))).
  - reflexivity.
  - repeat constructor.
  - reflexivity.
Defined.



(** What [Buffer.allocUnsafe] finds in memory influences nothing: every
    listener behaves the same on a host that differs in that memory only. *)
Theorem uninitialised_memory_never_observed (j : nat -> byte) (h : host)
        (ev : event) (st : conn) :
  dispatch (with_junk j h) ev st = dispatch h ev st.
Proof.
  destruct ev as [[data|]| | | | | | | |]; try reflexivity.
  simpl. unfold on_message. unfold_M.
  destruct (getProp data "event") as [ev|e]; [| reflexivity].
  destruct (is_str ev "start"); [reflexivity |].
  destruct (is_str ev "media"); [| reflexivity].
  unfold media_case. unfold_M.
  destruct (pushStream st) as [ps|]; [| reflexivity].
  destruct (getPropOpt (getPropOpt (Some data) "media") "payload") as [p|];
    [| reflexivity].
  destruct (truthy (Some p)); [| reflexivity].
  change (Buffer_from (with_junk j h) p) with (Buffer_from h p).
  destruct (Buffer_from h p) as [ulaw|e]; [| reflexivity].
  rewrite !decode_and_pack by (by rewrite allocUnsafe_length).
  reflexivity.
Qed.

(** ** Media messages that are not fed *)

(** A media message whose payload is missing or falsy (no [media] object, no
    [payload], an empty string, [null], [0], [false]) is dropped, with or
    without a sink. *)
Theorem media_without_payload_discarded (h : host) (data : json) (st : conn) :
  getProp data "event" = Normal (Some (JStr "media")) ->
  truthy (getPropOpt (getPropOpt (Some data) "media") "payload") = false ->
  on_message h (Some data) st = (Normal tt, st).
Proof.
  intros Hev Hfalsy. rewrite (on_message_media h st data Hev).
  unfold media_case. unfold_M.
  destruct (pushStream st); [| reflexivity].
  destruct (getPropOpt (getPropOpt (Some data) "media") "payload");
    [| reflexivity].
  by rewrite Hfalsy.
Qed.

Lemma media_without_payload_discarded_witness :
  on_message (quiet_host "") (Some (media_message EmptyString)) streaming
  = (Normal tt, streaming).
Proof.
  apply (media_without_payload_discarded (quiet_host "")
           (media_message EmptyString) streaming); reflexivity.
Defined.

(** Nothing in the media case catches an exception: when [Buffer.from]
    throws, the exception leaves the listener and the connection is as it was;
    when the write throws, the exception leaves the listener after the call. *)
Theorem media_exceptions_escape (h : host) (data p : json) (st : conn)
        (ps : nat) :
  getProp data "event" = Normal (Some (JStr "media")) ->
  pushStream st = Some ps ->
  getPropOpt (getPropOpt (Some data) "media") "payload" = Some p ->
  truthy (Some p) = true ->
  (forall e, Buffer_from h p = Throw e ->
             on_message h (Some data) st = (Throw e, st)) /\
  (forall ulaw,
      Buffer_from h p = Normal ulaw ->
      throws h (history st) (pushStream_write ps (pack_frame ulaw)) = true ->
      on_message h (Some data) st
      = (Throw HostError, record_call (pushStream_write ps (pack_frame ulaw)) st)).
Proof.
  intros Hev Hps Hp Htruthy. rewrite (on_message_media h st data Hev). split.
  - intros e Hfrom. unfold media_case. unfold_M.
    by rewrite Hps, Hp, Htruthy, Hfrom.
  - intros ulaw Hfrom Hthrows.
    rewrite (media_case_feeds h st ps data p ulaw Hps Hp Htruthy Hfrom).
    unfold extcall. fold (pack_frame ulaw). by rewrite Hthrows.
Qed.

Lemma media_exceptions_escape_witness :
  on_message (quiet_host "") (Some number_payload_message) streaming
  = (Throw TypeError, streaming).
Proof.
  refine (proj1 (media_exceptions_escape (quiet_host "") number_payload_message
                   (JNum 5) streaming 0%nat eq_refl eq_refl eq_refl eq_refl)
                TypeError eq_refl).
Defined.

(** ** Which listener makes which call *)

Section Emission.

Variable P : call -> Prop.
Variable h : host.

Lemma emits_nothing {A} (m : M A) :
  (forall st, history (snd (m st)) = history st) -> emits P m.
Proof.
  intros Hm st. exists []. rewrite app_nil_r. split; [apply Hm | constructor].
Qed.

Lemma emits_skip : emits P skip.
Proof. by apply emits_nothing. Qed.

Lemma emits_get : emits P get.
Proof. by apply emits_nothing. Qed.

Lemma emits_lift {A} (c : completion A) : emits P (lift c).
Proof. by apply emits_nothing. Qed.

Lemma emits_fresh : emits P fresh.
Proof. by apply emits_nothing. Qed.

Lemma emits_modify (g : conn -> conn) :
  (forall st, history (g st) = history st) -> emits P (modify g).
Proof. intros Hg. by apply emits_nothing. Qed.

Lemma emits_log (l : log_line) : P (console l) -> emits P (log l).
Proof.
  intros Hl st. exists [console l]. split; [reflexivity | by repeat constructor].
Qed.

Lemma emits_extcall (c : call) : P c -> emits P (extcall h c).
Proof.
  intros Hc st. exists [c]. split; [reflexivity | by repeat constructor].
Qed.

Lemma emits_bind {A B} (m : M A) (k : A -> M B) :
  emits P m -> (forall a, emits P (k a)) -> emits P (m ≫= k).
Proof.
  intros Hm Hk st. unfold mbind, M_bind.
  destruct (Hm st) as (added1 & Hh1 & HP1).
  destruct (m st) as [[a|e] st1]; simpl in *.
  - destruct (Hk a st1) as (added2 & Hh2 & HP2).
    exists (added1 ++ added2). split.
    + by rewrite Hh2, Hh1, app_assoc.
    + by apply Forall_app.
  - by exists added1.
Qed.

Lemma emits_try_catch (m handler : M unit) :
  emits P m -> emits P handler -> emits P (try_catch m handler).
Proof.
  intros Hm Hh st. unfold try_catch.
  destruct (Hm st) as (added1 & Hh1 & HP1).
  destruct (m st) as [[a|e] st1]; simpl in *.
  - by exists added1.
  - destruct (Hh st1) as (added2 & Hh2 & HP2).
    exists (added1 ++ added2). split.
    + by rewrite Hh2, Hh1, app_assoc.
    + by apply Forall_app.
Qed.

End Emission.

Ltac emission :=
  repeat first
    [ apply emits_skip | apply emits_get | apply emits_lift | apply emits_fresh
    | apply emits_modify; reflexivity
    | apply emits_log; exact I
    | apply emits_extcall; simpl; tauto
    | apply emits_bind | apply emits_try_catch
    | progress intros
    | match goal with
      | |- emits _ (match ?x with _ => _ end) => destruct x
      end ].

Lemma emits_start_case (h : host) (data : json) :
  emits (allowed StartMessage) (start_case h data).
Proof. unfold start_case, startRecognizer. emission. Qed.

Lemma emits_media_case (h : host) (data : json) :
  emits (allowed MediaMessage) (media_case h data).
Proof. unfold media_case. emission. Qed.

Lemma emits_stop_case (h : host) : emits (allowed StopMessage) (stop_case h).
Proof. unfold stop_case. emission. Qed.

Lemma emits_on_close (h : host) : emits (allowed TransportClose) (on_close h).
Proof. unfold on_close. emission. Qed.

Lemma emits_recognized (h : host) (text : option string) (now : Z) (iso : string) :
  emits (allowed FinalResult) (recognized h text now iso).
Proof. unfold recognized. emission. Qed.

Lemma emits_dispatch (h : host) (ev : event) :
  emits (allowed (kind_of ev)) (dispatch h ev).
Proof.
  destruct ev as [[data|]| | | | | | | k |]; simpl.
  - unfold on_message. intros st. unfold mbind, M_bind, lift.
    destruct (getProp data "event") as [name|e]; simpl.
    + destruct (is_str name "start"); [apply emits_start_case |].
      destruct (is_str name "media"); [apply emits_media_case |].
      destruct (is_str name "stop"); [apply emits_stop_case | by apply emits_skip].
    + exists []. rewrite app_nil_r. split; [reflexivity | constructor].
  - emission.
  - apply emits_on_close.
  - emission.
  - unfold recognizing. emission.
  - apply emits_recognized.
  - emission.
  - emission.
  - unfold run_continuation. destruct k; emission.
  - unfold fetch_settled. emission.
Qed.

(** Every call has one origin.  The push stream and the recognizer are
    constructed (at 8000 Hz, 16 bits, one channel) by a start message only; a
    push stream is written by a media message only; the socket is closed by a
    stop message only; the push stream is closed and the recognizer asked to
    stop by the close listener only, with [rec.close()] as both
    continuations; the recognizer is released by that continuation only; the
    webhook is called by the final-result handler only; every other listener
    writes to the console at most. *)
Theorem calls_have_one_origin (h : host) (ev : event) (st : conn) :
  exists added,
    history (snd (dispatch h ev st)) = history st ++ added /\
    Forall (allowed (kind_of ev)) added.
Proof. apply emits_dispatch. Qed.

(** ** Invariants of a connection *)

Lemma omap_none_of_Forall {B} (f : call -> option B) (P : call -> Prop)
      (added : list call) :
  (forall c, P c -> f c = None) -> Forall P added -> omap f added = [].
Proof.
  intros Hf Hadded. induction Hadded as [|c added Hc _ IH]; [reflexivity |].
  change (c :: added) with ([c] ++ added). rewrite omap_app, IH, app_nil_r.
  simpl. by rewrite (Hf c Hc).
Qed.

Lemma constructed_only_by_start (k : kind) (added : list call) :
  k <> StartMessage -> Forall (allowed k) added -> constructed added = [].
Proof.
  intros Hk. apply omap_none_of_Forall. intros [] Hc; simpl in *; congruence.
Qed.

Lemma stop_requests_only_by_close (k : kind) (added : list call) :
  k <> TransportClose -> Forall (allowed k) added -> stop_requests added = [].
Proof.
  intros Hk. apply omap_none_of_Forall. intros [] Hc; simpl in *; tauto.
Qed.

Lemma released_only_by_continuation (k : kind) (added : list call) :
  k <> Release -> Forall (allowed k) added -> released added = [].
Proof.
  intros Hk. apply omap_none_of_Forall. intros [] Hc; simpl in *; congruence.
Qed.

Lemma posts_only_by_final_result (k : kind) (added : list call) :
  k <> FinalResult -> Forall (allowed k) added -> posts added = [].
Proof.
  intros Hk. apply omap_none_of_Forall. intros [] Hc; simpl in *; congruence.
Qed.


Lemma kind_of_non_start (ev : event) :
  kind_of ev <> StartMessage -> is_start ev = false.
Proof.
  destruct ev as [[[]|]| | | | | | | |]; simpl; try reflexivity.
  intros Hk. destruct (is_str (assoc "event" fields) "start"); [by destruct Hk | reflexivity].
Qed.

Lemma kind_of_start (h : host) (ev : event) (st : conn) :
  kind_of ev = StartMessage ->
  exists data, dispatch h ev st = start_case h data st.
Proof.
  destruct ev as [[data|]| | | | | | | k |]; simpl; try discriminate.
  - intros Hk. exists data. unfold on_message. unfold_M.
    destruct (getProp data "event") as [name|e]; [| discriminate Hk].
    destruct (is_str name "start"); [reflexivity |].
    destruct (is_str name "media"); [discriminate Hk |].
    destruct (is_str name "stop"); discriminate Hk.
  - destruct k; discriminate.
Qed.

Lemma kind_of_close (ev : event) : kind_of ev = TransportClose -> ev = WsClose.
Proof.
  destruct ev as [[data|]| | | | | | | k |]; simpl; try discriminate; try reflexivity.
  - destruct (getProp data "event") as [name|e]; [| discriminate].
    destruct (is_str name "start"); [discriminate |].
    destruct (is_str name "media"); [discriminate |].
    destruct (is_str name "stop"); discriminate.
  - destruct k; discriminate.
Qed.

Lemma kind_of_release (ev : event) : kind_of ev = Release -> ev = Settled CloseRec.
Proof.
  destruct ev as [[data|]| | | | | | | k |]; simpl; try discriminate.
  - destruct (getProp data "event") as [name|e]; [| discriminate].
    destruct (is_str name "start"); [discriminate |].
    destruct (is_str name "media"); [discriminate |].
    destruct (is_str name "stop"); discriminate.
  - destruct k; try discriminate. reflexivity.
Qed.

(** Only a start message assigns [rec] and [pushStream]. *)
Lemma handles_unchanged_unless_start (h : host) (ev : event) (st : conn) :
  kind_of ev <> StartMessage ->
  rec (snd (dispatch h ev st)) = rec st /\
  pushStream (snd (dispatch h ev st)) = pushStream st.
Proof.
  intros Hk.
  pose proof (preserves_dispatch_non_start (fun st => (rec st, pushStream st))
                (fun _ _ _ => eq_refl) h ev (fun _ _ => eq_refl)
                (fun _ _ => eq_refl) (kind_of_non_start ev Hk) st) as Hkeep.
  simpl in Hkeep. by injection Hkeep.
Qed.

(** What a start message leaves in [rec] and [pushStream], whichever of the
    calls of [startRecognizer] throws. *)
Lemma start_case_outcome (h : host) (data : json) (st : conn) :
  (rec (snd (start_case h data st)) = rec st /\
   (pushStream (snd (start_case h data st)) = pushStream st \/
    is_Some (pushStream (snd (start_case h data st))))) \/
  (exists r, rec (snd (start_case h data st)) = Some r /\
             is_Some (pushStream (snd (start_case h data st))) /\
             r ∈ constructed (history (snd (start_case h data st)))).
Proof.
  unfold start_case, startRecognizer. unfold_M. unfold extcall, fresh.
  destruct st as [sid r ps last hist n]. case_throws;
    first [ left; split; [reflexivity | by left]
          | left; split; [reflexivity | right; by eexists]
          | right; eexists; split; [reflexivity |]; split; [by eexists |];
            unfold constructed; rewrite !omap_app; simpl;
            rewrite !app_nil_r; apply elem_of_app; right; constructor ].
Qed.

Lemma elem_of_omap_app_l {B} (f : call -> option B) (l1 l2 : list call) (x : B) :
  x ∈ omap f l1 -> x ∈ omap f (l1 ++ l2).
Proof. intros Hx. rewrite omap_app. apply elem_of_app. by left. Qed.

Lemma session_inv_connected : session_inv connected.
Proof.
  repeat split; simpl.
  - by intros [? ?].
  - by intros [].
  - discriminate.
  - intros r Hr. by apply elem_of_nil in Hr.
Qed.

Lemma session_inv_step (h : host) (ev : event) (st : conn) :
  session_inv st -> session_inv (snd (dispatch h ev st)).
Proof.
  intros (Hsink & Hstop & Hheld & Hrel). unfold session_inv.
  destruct (emits_dispatch h ev st) as (added & Hhist & Hadded).
  assert (Hgrow : forall r, r ∈ constructed (history st) ->
                            r ∈ constructed (history (snd (dispatch h ev st)))).
  { intros r Hr. rewrite Hhist. by apply elem_of_omap_app_l. }
  destruct (decide (kind_of ev = StartMessage)) as [Hk | Hk].
  - (* a start message *)
    destruct (kind_of_start h ev st Hk) as (data & Hdispatch).
    assert (Hstop' : stop_requests (history (snd (dispatch h ev st)))
                     = stop_requests (history st)).
    { rewrite Hhist. unfold stop_requests at 1. rewrite omap_app.
      fold (stop_requests (history st)) (stop_requests added).
      rewrite (stop_requests_only_by_close (kind_of ev) added
                 ltac:(rewrite Hk; discriminate) Hadded).
      apply app_nil_r. }
    assert (Hrel' : released (history (snd (dispatch h ev st)))
                    = released (history st)).
    { rewrite Hhist. unfold released at 1. rewrite omap_app.
      fold (released (history st)) (released added).
      rewrite (released_only_by_continuation (kind_of ev) added
                 ltac:(rewrite Hk; discriminate) Hadded).
      apply app_nil_r. }
    rewrite Hstop', Hrel'. rewrite Hdispatch in Hgrow |- *.
    destruct (start_case_outcome h data st)
      as [[Hrec [Hps | Hps]] | (r & Hrec & Hps & Hr)]; rewrite ?Hrec, ?Hps.
    + split; [exact Hsink |]. split; [exact Hstop |].
      split; intros r Hr; apply Hgrow; [by apply Hheld | by apply Hrel].
    + split; [intros _; exact Hps |]. split; [exact Hstop |].
      split; intros r Hr; apply Hgrow; [by apply Hheld | by apply Hrel].
    + split; [intros _; exact Hps |]. split; [intros _; by eexists |].
      split; [intros r' [= <-]; exact Hr |].
      intros r' Hr'. apply Hgrow. by apply Hrel.
  - (* any other event *)
    destruct (handles_unchanged_unless_start h ev st Hk) as [Hrec Hps].
    rewrite Hrec, Hps. split; [exact Hsink |]. split; [| split].
    + destruct (decide (kind_of ev = TransportClose)) as [Hc | Hc].
      * apply kind_of_close in Hc. subst ev. cbn [dispatch].
        rewrite on_close_history. unfold stop_requests at 1.
        rewrite !omap_app. fold (stop_requests (history st)). simpl.
        destruct (rec st) as [r|]; [intros _; by eexists |].
        destruct (pushStream st); simpl; rewrite app_nil_r; exact Hstop.
      * rewrite Hhist. unfold stop_requests at 1. rewrite omap_app.
        fold (stop_requests (history st)) (stop_requests added).
        rewrite (stop_requests_only_by_close _ added Hc Hadded), app_nil_r.
        exact Hstop.
    + intros r Hr. apply Hgrow. by apply Hheld.
    + destruct (decide (kind_of ev = Release)) as [Hr | Hr].
      * apply kind_of_release in Hr. subst ev. cbn [dispatch] in *.
        destruct (rec st) as [r0|] eqn:Hrec0.
        -- rewrite (run_CloseRec_history h st r0 Hrec0) in Hgrow |- *.
           intros r. unfold released at 1. rewrite omap_app.
           fold (released (history st)). simpl.
           intros [Hold | Hnew%list_elem_of_singleton]%elem_of_app;
             apply Hgrow; [by apply Hrel | subst; by apply Hheld].
        -- unfold run_continuation. unfold_M. rewrite Hrec0. simpl. exact Hrel.
      * intros r. rewrite Hhist at 1. unfold released at 1. rewrite omap_app.
        fold (released (history st)) (released added).
        rewrite (released_only_by_continuation _ added Hr Hadded), app_nil_r.
        intros Hold. apply Hgrow. by apply Hrel.
Qed.

Lemma session_inv_run (h : host) (evs : list event) :
  forall st, session_inv st -> session_inv (snd (run h evs st)).
Proof.
  induction evs as [|ev evs IH]; intros st Hinv; simpl; [exact Hinv |].
  pose proof (session_inv_step h ev st Hinv) as Hstep.
  destruct (dispatch h ev st) as [[a|e] st']; simpl in *; [by apply IH | exact Hstep].
Qed.

(** In every state a connection can reach, on any host: a recognizer is held
    only together with a push stream; a stop was requested only if a
    recognizer is held; and the recognizer held, like every recognizer ever
    released, is one that [startRecognizer] constructed. *)
Theorem reachable_session_invariant (h : host) (evs : list event) :
  session_inv (snd (run h evs connected)).
Proof. apply session_inv_run, session_inv_connected. Qed.

(** The continuation of a stop request always finds a recognizer: in a
    reachable state in which a stop was requested, [() => rec.close()] calls
    [close] on a recognizer that was constructed, and does not fail on an
    undefined [rec]. *)
Theorem pending_release_finds_recognizer (h : host) (evs : list event) :
  stop_requests (history (snd (run h evs connected))) <> [] ->
  exists r,
    rec (snd (run h evs connected)) = Some r /\
    r ∈ constructed (history (snd (run h evs connected))) /\
    history (snd (run_continuation h CloseRec (snd (run h evs connected))))
    = history (snd (run h evs connected)) ++ [recognizer_close r].
Proof.
  intros Hstop.
  destruct (session_inv_run h evs connected session_inv_connected)
    as (_ & Hreq & Hheld & _).
  destruct (Hreq Hstop) as [r Hr]. exists r.
  split; [exact Hr |]. split; [by apply Hheld |].
  by apply run_CloseRec_history.
Qed.

Lemma pending_release_finds_recognizer_witness :
  stop_requests (history (snd (run (quiet_host "") [example_start; WsClose] connected)))
  <> [] /\
  exists r, rec (snd (run (quiet_host "") [example_start; WsClose] connected)) = Some r.
Proof.
  split; [discriminate |].
  destruct (pending_release_finds_recognizer (quiet_host "")
              [example_start; WsClose]) as (r & Hr & _); [discriminate |].
  by exists r.
Defined.

(** [rec] and [pushStream], once assigned, are never cleared: no event takes
    either back to [undefined], not even the close of the transport. *)
Theorem handles_never_cleared (h : host) (evs : list event) (st : conn) :
  (is_Some (pushStream st) -> is_Some (pushStream (snd (run h evs st)))) /\
  (is_Some (rec st) -> is_Some (rec (snd (run h evs st)))).
Proof.
  revert st. induction evs as [|ev evs IH]; intros st; simpl; [by split |].
  assert (Hstep : (is_Some (pushStream st) ->
                   is_Some (pushStream (snd (dispatch h ev st)))) /\
                  (is_Some (rec st) -> is_Some (rec (snd (dispatch h ev st))))).
  { destruct (decide (kind_of ev = StartMessage)) as [Hk | Hk].
    - destruct (kind_of_start h ev st Hk) as (data & ->).
      destruct (start_case_outcome h data st)
        as [[-> [-> | Hps]] | (r & -> & Hps & _)]; split; eauto.
    - destruct (handles_unchanged_unless_start h ev st Hk) as [-> ->].
      by split. }
  destruct (dispatch h ev st) as [[a|e] st']; simpl in *; [| exact Hstep].
  destruct (IH st') as [IHps IHrec]. split; tauto.
Qed.

Lemma handles_never_cleared_witness :
  is_Some (pushStream streaming) /\
  is_Some (pushStream (snd (run (quiet_host "") [WsClose; Settled CloseRec] streaming))).
Proof.
  split; [by eexists |].
  apply (proj1 (handles_never_cleared (quiet_host "") [WsClose; Settled CloseRec]
                  streaming)).
  by eexists.
Defined.

(** ** The start message *)

Lemma on_message_start (h : host) (st : conn) (data : json) :
  getProp data "event" = Normal (Some (JStr "start")) ->
  on_message h (Some data) st = start_case h data st.
Proof. intros Hev. unfold on_message. unfold_M. by rewrite Hev. Qed.

(** The call id is [data.start.callSid] when that value is truthy and the
    empty string otherwise (no [start] object, no [callSid], an empty string,
    [null], [0]); it is recorded whether or not the recognizer can be
    started. *)
Theorem start_records_call_id (h : host) (data : json) (st : conn) :
  getProp data "event" = Normal (Some (JStr "start")) ->
  callSid (snd (on_message h (Some data) st))
  = match getPropOpt (getPropOpt (Some data) "start") "callSid" with
    | Some v => if truthy (Some v) then v else JStr EmptyString
    | None => JStr EmptyString
    end.
Proof.
  intros Hev. rewrite (on_message_start h st data Hev).
  unfold start_case.
  assert (Hrest : forall st0,
             callSid (snd ((st1 ← get; log (LogStreamStarted (callSid st1));;
                            startRecognizer h) st0)) = callSid st0).
  { apply (preserves_bind callSid); [apply preserves_get |].
    intros st1. apply (preserves_bind callSid);
      [apply preserves_log; by intros |].
    intros _. apply preserves_startRecognizer; by intros. }
  unfold mbind at 1. unfold M_bind, modify. rewrite Hrest.
  unfold set_callSid. cbn [callSid].
  destruct (getPropOpt (getPropOpt (Some data) "start") "callSid"); reflexivity.
Qed.

Lemma start_records_call_id_witness :
  callSid (snd (on_message (quiet_host "") (Some (start_message "CA123")) connected))
  = JStr "CA123" /\
  callSid (snd (on_message (quiet_host "")
                  (Some (JObj [("event", JStr "start")]%string)) streaming))
  = JStr EmptyString.
Proof.
  split.
  - exact (start_records_call_id (quiet_host "") (start_message "CA123") connected eq_refl).
  - exact (start_records_call_id (quiet_host "")
             (JObj [("event", JStr "start")]%string) streaming eq_refl).
Defined.

(** On a host whose calls return, a start message leaves the session holding
    a new push stream and a new recognizer constructed on that push stream:
    the frames fed afterwards go to the stream the recognizer reads. *)
Theorem start_binds_recognizer_to_sink (h : host) (data : json) (st : conn) :
  (forall l c, throws h l c = false) ->
  getProp data "event" = Normal (Some (JStr "start")) ->
  fst (on_message h (Some data) st) = Normal tt /\
  pushStream (snd (on_message h (Some data) st)) = Some (next_obj st) /\
  rec (snd (on_message h (Some data) st)) = Some (S (next_obj st)) /\
  exists log_line,
    history (snd (on_message h (Some data) st))
    = history st
      ++ [console log_line; SpeechConfig_fromSubscription;
          getWaveFormatPCM 8000 16 1; createPushStream (next_obj st);
          AudioConfig_fromStreamInput (next_obj st);
          new_SpeechRecognizer (S (next_obj st)) (next_obj st);
          startContinuousRecognitionAsync (S (next_obj st)) LogStarted LogStartError].
Proof.
  intros Hquiet Hev. rewrite (on_message_start h st data Hev).
  unfold start_case, startRecognizer. unfold_M. unfold extcall, fresh.
  destruct st as [sid r ps last hist n]. simpl. rewrite !Hquiet. simpl.
  repeat split. eexists. rewrite <- !app_assoc. reflexivity.
Qed.

Lemma start_binds_recognizer_to_sink_witness :
  pushStream (snd (on_message (quiet_host "") (Some (start_message "CA123")) streaming))
  = Some 2%nat /\
  rec (snd (on_message (quiet_host "") (Some (start_message "CA123")) streaming))
  = Some 3%nat.
Proof.
  destruct (start_binds_recognizer_to_sink (quiet_host "") (start_message "CA123")
              streaming (fun _ _ => eq_refl) eq_refl) as (_ & Hps & Hrec & _).
  split; [exact Hps | exact Hrec].
Defined.

(** [startRecognizer] is not atomic: [pushStream] is assigned before the
    recognizer is constructed.  When the constructor throws, the exception
    leaves the listener, the session holds the new push stream, and [rec] is
    what it was before. *)
Theorem failed_start_keeps_new_sink (h : host) (data : json) (st : conn) :
  getProp data "event" = Normal (Some (JStr "start")) ->
  (forall l c, throws h l c
               = match c with new_SpeechRecognizer _ _ => true | _ => false end) ->
  fst (on_message h (Some data) st) = Throw HostError /\
  pushStream (snd (on_message h (Some data) st)) = Some (next_obj st) /\
  rec (snd (on_message h (Some data) st)) = rec st.
Proof.
  intros Hev Hthrows. rewrite (on_message_start h st data Hev).
  unfold start_case, startRecognizer. unfold_M. unfold extcall, fresh.
  destruct st as [sid r ps last hist n]. simpl. rewrite !Hthrows. simpl.
  repeat split.
Qed.

Lemma failed_start_keeps_new_sink_witness :
  fst (on_message failing_constructor_host (Some (start_message "CA124")) streaming)
  = Throw HostError /\
  pushStream (snd (on_message failing_constructor_host (Some (start_message "CA124"))
                     streaming))
  = Some 2%nat /\
  rec (snd (on_message failing_constructor_host (Some (start_message "CA124"))
              streaming))
  = Some 1%nat.
Proof.
  exact (failed_start_keeps_new_sink failing_constructor_host
           (start_message "CA124") streaming eq_refl (fun _ _ => eq_refl)).
Defined.

(** ** The stop message *)

Lemma on_message_stop (h : host) (st : conn) (data : json) :
  getProp data "event" = Normal (Some (JStr "stop")) ->
  on_message h (Some data) st = stop_case h st.
Proof. intros Hev. unfold on_message. unfold_M. by rewrite Hev. Qed.

(** A stop message closes the socket and nothing else: the session variables
    stay, the push stream is not closed and the recognizer is not stopped
    (that is left to the close listener), so a media message handled after it
    is still decoded and written. *)
Theorem stop_only_closes_socket (h : host) (data : json) (st : conn) :
  getProp data "event" = Normal (Some (JStr "stop")) ->
  history (snd (on_message h (Some data) st))
  = history st ++ [console LogStopReceived; ws_close] /\
  session_vars (snd (on_message h (Some data) st)) = session_vars st /\
  forall ps p ulaw,
    pushStream st = Some ps ->
    truthy (Some p) = true ->
    Buffer_from h p = Normal ulaw ->
    history (snd (dispatch h (media_event p) (snd (on_message h (Some data) st))))
    = history st
      ++ [console LogStopReceived; ws_close; pushStream_write ps (pack_frame ulaw)].
Proof.
  intros Hev. rewrite (on_message_stop h st data Hev).
  assert (Hhist : history (snd (stop_case h st))
                  = history st ++ [console LogStopReceived; ws_close]).
  { unfold stop_case. unfold_M. unfold extcall.
    destruct st as [sid r ps last hist n]. case_throws;
      by rewrite <- app_assoc. }
  assert (Hvars : session_vars (snd (stop_case h st)) = session_vars st)
    by apply (preserves_stop_case session_vars (fun _ _ _ => eq_refl) h).
  split; [exact Hhist |]. split; [exact Hvars |].
  intros ps p ulaw Hps Htruthy Hfrom.
  assert (Hps' : pushStream (snd (stop_case h st)) = Some ps).
  { unfold session_vars in Hvars. congruence. }
  rewrite (media_event_feeds h _ ps p ulaw Hps' Htruthy Hfrom).
  unfold extcall, record_call. cbn [snd history].
  rewrite Hhist. by rewrite <- app_assoc.
Qed.

Lemma stop_only_closes_socket_witness :
  writes (history (snd (run (quiet_host "")
                          [WsMessage (Some stop_message); example_media] streaming)))
  = [[x00; x00; x00; x00; x84; x82; x7c; x7d]].
Proof.
  destruct (stop_only_closes_socket (quiet_host "") stop_message streaming eq_refl)
    as (_ & _ & Hfed).
  specialize (Hfed 0%nat (JStr example_frame) [xff; x7f; x00; x80]
                eq_refl eq_refl eq_refl).
  change (run (quiet_host "") [WsMessage (Some stop_message); example_media] streaming)
    with (dispatch (quiet_host "") (media_event (JStr example_frame))
            (snd (on_message (quiet_host "") (Some stop_message) streaming))).
  rewrite Hfed. reflexivity.
Defined.

(** ** The close listener *)

(** Teardown order: the push stream is closed first, then the recognizer is
    asked to stop; the stop is requested even when closing the push stream
    throws, and the listener returns normally either way. *)
Theorem teardown_closes_sink_then_stops (h : host) (st : conn) (ps r : nat) :
  pushStream st = Some ps ->
  rec st = Some r ->
  on_close h st
  = (Normal tt,
     record_call (stopContinuousRecognitionAsync r CloseRec CloseRec)
       (record_call (pushStream_close ps) (record_call (console LogClosed) st))).
Proof.
  intros Hps Hrec. unfold on_close. unfold_M. unfold extcall.
  destruct st as [sid r0 ps0 last hist n]. simpl in Hps, Hrec. subst r0 ps0.
  case_throws; reflexivity.
Qed.

Lemma teardown_closes_sink_then_stops_witness :
  pushStream streaming = Some 0%nat /\ rec streaming = Some 1%nat /\
  fst (on_close (quiet_host "") streaming) = Normal tt.
Proof.
  split; [reflexivity | split; [reflexivity |]].
  by rewrite (teardown_closes_sink_then_stops (quiet_host "") streaming 0%nat 1%nat).
Defined.

(** The close listener itself releases nothing: the recognizers that are live
    before it are live after it; the release waits for the SDK to call a
    continuation back. *)
Theorem teardown_releases_nothing (h : host) (st : conn) :
  live_recognizers (history (snd (on_close h st))) = live_recognizers (history st).
Proof.
  unfold live_recognizers. rewrite on_close_history.
  assert (Hc : constructed (history st ++ [console LogClosed]
                 ++ match pushStream st with Some ps => [pushStream_close ps] | None => [] end
                 ++ match rec st with
                    | Some r => [stopContinuousRecognitionAsync r CloseRec CloseRec]
                    | None => []
                    end) = constructed (history st)).
  { unfold constructed. rewrite !omap_app.
    destruct (pushStream st), (rec st); simpl; by rewrite app_nil_r. }
  assert (Hr : released (history st ++ [console LogClosed]
                 ++ match pushStream st with Some ps => [pushStream_close ps] | None => [] end
                 ++ match rec st with
                    | Some r => [stopContinuousRecognitionAsync r CloseRec CloseRec]
                    | None => []
                    end) = released (history st)).
  { unfold released. rewrite !omap_app.
    destruct (pushStream st), (rec st); simpl; by rewrite app_nil_r. }
  by rewrite Hc, Hr.
Qed.

(** ** The final-result handler *)

(** The handler never throws, on any host and for any event: an exception of
    [fetch] is caught and logged. *)
Theorem recognized_never_throws (h : host) (text : option string) (now : Z)
        (iso : string) (st : conn) :
  fst (recognized h text now iso st) = Normal tt.
Proof.
  unfold recognized. unfold_M. unfold extcall.
  destruct text as [s|]; [| reflexivity].
  destruct (truthy_text (Some s)); [| reflexivity]. simpl.
  destruct (now - lastSentTime st <? 2000); [reflexivity |]. simpl.
  destruct (negb (N8N h =? "")%string); [| reflexivity].
  case_throws; reflexivity.
Qed.

(** A final result with no text or an empty text is ignored altogether: no
    console line, no request, and the debounce timestamp is not touched. *)
Theorem empty_final_result_ignored (h : host) (text : option string) (now : Z)
        (iso : string) (st : conn) :
  truthy_text text = false ->
  recognized h text now iso st = (Normal tt, st).
Proof.
  intros Hempty. unfold recognized.
  destruct text as [s|]; [| reflexivity]. by rewrite Hempty.
Qed.

Lemma empty_final_result_ignored_witness :
  recognized (quiet_host "https://n8n.example/webhook") (Some EmptyString)
    1700000000000 "t1" streaming
  = (Normal tt, streaming).
Proof.
  apply (empty_final_result_ignored (quiet_host "https://n8n.example/webhook")
           (Some EmptyString) 1700000000000 "t1" streaming).
  reflexivity.
Defined.

(** A delivery that fails is logged and not retried, and the event still
    counts as sent: when [fetch] throws, the handler returns normally with the
    timestamp moved to the time of the event, and when the promise of [fetch]
    is rejected later, only a console line is written. *)
Theorem failed_delivery_counts_as_sent (h : host) (st : conn) (s iso : string)
        (now : Z) :
  N8N h <> ""%string -> s <> ""%string -> 2000 <= now - lastSentTime st ->
  throws h (history st ++ [console (LogFinal s)])
         (fetch (N8N h) {| body_callSid := callSid st; body_text := s;
                           body_timestamp := iso |}) = true ->
  fst (recognized h (Some s) now iso st) = Normal tt /\
  lastSentTime (snd (recognized h (Some s) now iso st)) = now /\
  history (snd (recognized h (Some s) now iso st))
  = history st
    ++ [console (LogFinal s);
        fetch (N8N h) {| body_callSid := callSid st; body_text := s;
                         body_timestamp := iso |};
        console LogPostError] /\
  forall st', fetch_settled false st'
              = (Normal tt, record_call (console LogPostError) st').
Proof.
  intros Hurl Hs Hlate Hthrows. unfold recognized.
  rewrite (truthy_text_nonempty s Hs). unfold_M. unfold extcall. simpl.
  replace (now - lastSentTime st <? 2000) with false
    by (symmetry; apply Z.ltb_ge; lia).
  replace (negb (N8N h =? "")%string) with true
    by (symmetry; apply negb_true_iff; by apply String.eqb_neq).
  simpl. rewrite Hthrows. simpl. rewrite <- !app_assoc. by repeat split.
Qed.

Lemma failed_delivery_counts_as_sent_witness :
  lastSentTime (snd (recognized (failing_fetch_host "https://n8n.example/webhook")
                       (Some "hello"%string) 1700000000000 "t1" streaming))
  = 1700000000000.
Proof.
  refine (proj1 (proj2 (failed_delivery_counts_as_sent
                          (failing_fetch_host "https://n8n.example/webhook")
                          streaming "hello" "t1" 1700000000000 _ _ _ _))).
  - discriminate.
  - discriminate.
  - simpl. lia.
  - reflexivity.
Defined.

(** *** The debounce as a rate limit *)

Lemma posts_length_app (l1 l2 : list call) :
  length (posts (l1 ++ l2)) = (length (posts l1) + length (posts l2))%nat.
Proof. by rewrite posts_app, length_app. Qed.

(** One final result: at most one request, and a request moves the timestamp
    forward by 2000 ms or more. *)
Lemma recognized_rate_step (h : host) (text : option string) (now : Z)
      (iso : string) (st : conn) :
  lastSentTime st <= lastSentTime (snd (recognized h text now iso st)) /\
  2000 * Z.of_nat (length (posts (history (snd (recognized h text now iso st)))))
  <= 2000 * Z.of_nat (length (posts (history st)))
     + (lastSentTime (snd (recognized h text now iso st)) - lastSentTime st).
Proof.
  unfold recognized. unfold_M. unfold extcall.
  destruct text as [s|]; [| simpl; lia].
  destruct (truthy_text (Some s)); [| simpl; lia]. simpl.
  destruct (now - lastSentTime st <? 2000) eqn:Hsoon; simpl.
  - rewrite !posts_length_app. simpl. lia.
  - apply Z.ltb_ge in Hsoon.
    destruct (negb (N8N h =? "")%string); simpl.
    + case_throws; rewrite !posts_length_app; simpl; lia.
    + rewrite !posts_length_app. simpl. lia.
Qed.

Lemma dispatch_rate_step (h : host) (ev : event) (st : conn) :
  lastSentTime st <= lastSentTime (snd (dispatch h ev st)) /\
  2000 * Z.of_nat (length (posts (history (snd (dispatch h ev st)))))
  <= 2000 * Z.of_nat (length (posts (history st)))
     + (lastSentTime (snd (dispatch h ev st)) - lastSentTime st).
Proof.
  destruct (is_recognized ev) eqn:Hrec.
  - destruct ev; try discriminate Hrec. apply recognized_rate_step.
  - pose proof (preserves_dispatch_non_recognized
                  (fun st => (lastSentTime st, posts (history st)))) as Hkeep.
    specialize (Hkeep ltac:(intros c st0 Hc; simpl; f_equal;
                            rewrite posts_app; destruct c; simpl in *;
                            rewrite ?app_nil_r; done)
                      h (fun _ => eq_refl) (fun _ _ => eq_refl)
                      (fun _ _ => eq_refl) (fun _ _ => eq_refl) ev Hrec st).
    simpl in Hkeep. injection Hkeep as -> ->. lia.
Qed.

(** Over any run of events, on any host, the debounce timestamp never goes
    back and the webhook is called at most once per 2000 ms of its advance:
    2000 times the number of requests made during the run is at most the
    advance of [lastSentTime]. *)
Theorem webhook_rate_limited (h : host) (evs : list event) (st : conn) :
  lastSentTime st <= lastSentTime (snd (run h evs st)) /\
  2000 * Z.of_nat (length (posts (history (snd (run h evs st)))))
  <= 2000 * Z.of_nat (length (posts (history st)))
     + (lastSentTime (snd (run h evs st)) - lastSentTime st).
Proof.
  revert st. induction evs as [|ev evs IH]; intros st; simpl; [lia |].
  pose proof (dispatch_rate_step h ev st) as Hstep.
  destruct (dispatch h ev st) as [[a|e] st']; simpl in *; [| exact Hstep].
  specialize (IH st'). lia.
Qed.

(** ** One call from start to release *)






(** ** The call-control document *)

Lemma string_app_assoc (a b c : string) :
  ((a ++ b) ++ c)%string = (a ++ (b ++ c))%string.
Proof. induction a as [|x a IH]; simpl; [reflexivity | by rewrite IH]. Qed.

Lemma string_app_length (a b : string) :
  String.length (a ++ b) = (String.length a + String.length b)%nat.
Proof. induction a as [|x a IH]; simpl; [reflexivity | by rewrite IH]. Qed.

Lemma string_app_inj_l (p a b : string) :
  (p ++ a)%string = (p ++ b)%string -> a = b.
Proof.
  induction p as [|x p IH]; simpl; [done |]. intros [= Heq]. by apply IH.
Qed.

Lemma string_app_inj_r (a b s : string) :
  (a ++ s)%string = (b ++ s)%string -> a = b.
Proof.
  revert b. induction a as [|x a IH]; intros [|y b] Heq; simpl in *.
  - reflexivity.
  - apply (f_equal String.length) in Heq. simpl in Heq.
    rewrite string_app_length in Heq. lia.
  - apply (f_equal String.length) in Heq. simpl in Heq.
    rewrite string_app_length in Heq. lia.
  - injection Heq as -> Heq. f_equal. by apply IH.
Qed.

(** The document carries the address [wss://<host>/twilio] as the [url] of
    its [Stream] element, the host name copied as it came (not escaped, and
    [undefined] when the request had no host header); nothing else in the
    document depends on the host, and two hosts give the same document only
    if they are the same text. *)
Theorem twiml_embeds_stream_url (hostname : option string) :
  contains ("<Stream url=" ++ dq ++ "wss://" ++ interpolate hostname ++ "/twilio" ++ dq
            ++ " track=" ++ dq ++ "inbound" ++ dq ++ "/>")
           (voiceTwiml hostname) /\
  String.length (voiceTwiml hostname) = (224 + String.length (interpolate hostname))%nat /\
  forall other, voiceTwiml hostname = voiceTwiml other ->
                interpolate hostname = interpolate other.
Proof.
  split; [| split].
  - exists ("<Response>" ++ nl
            ++ "    <Say voice=" ++ dq ++ "Polly.Matthew" ++ dq
            ++ ">Hi! My name is Gio from Trend Micro Support. How can I assist you today?</Say>"
            ++ nl ++ "    <Start>")%string,
           ("</Start>" ++ nl ++ "    <Pause length=" ++ dq ++ "60" ++ dq ++ "/>" ++ nl
            ++ "  </Response>")%string.
    unfold voiceTwiml, twiml_head, twiml_tail.
    rewrite !string_app_assoc. reflexivity.
  - unfold voiceTwiml. rewrite !string_app_length. simpl. lia.
  - intros other Heq. unfold voiceTwiml in Heq.
    apply string_app_inj_l, string_app_inj_r in Heq.
    by apply string_app_inj_l, string_app_inj_r in Heq.
Qed.

Example twiml_for_example_host :
  voiceTwiml (Some "example.com"%string)
  = (twiml_head ++ "wss://example.com/twilio" ++ twiml_tail)%string.
Proof. reflexivity. Qed.

(** ** Configuration *)

Lemma truthy_text_spec (x : option string) :
  truthy_text x = true <-> exists s, x = Some s /\ s <> ""%string.
Proof.
  destruct x as [s|]; simpl.
  - rewrite negb_true_iff, String.eqb_neq. split.
    + intros Hs. by exists s.
    + by intros (s' & [= <-] & Hs).
  - split; [discriminate | by intros (s' & [=] & _)].
Qed.

(** The process starts exactly when [AZURE_SPEECH_KEY] is set to a non-empty
    string and one of [AZURE_SPEECH_REGION], [AZURE_REGION] is; a variable set
    to the empty string counts as missing.  The region is
    [AZURE_SPEECH_REGION] when that is non-empty and [AZURE_REGION]
    otherwise.  The webhook variables and [PORT] play no part. *)
Theorem startup_requires_key_and_region (env : Config.environment) :
  (Config.exits env = false <->
   (exists k, env "AZURE_SPEECH_KEY"%string = Some k /\ k <> ""%string) /\
   ((exists r, env "AZURE_SPEECH_REGION"%string = Some r /\ r <> ""%string) \/
    (exists r, env "AZURE_REGION"%string = Some r /\ r <> ""%string))) /\
  (forall r, env "AZURE_SPEECH_REGION"%string = Some r -> r <> ""%string ->
             Config.REGION env = Some r) /\
  (truthy_text (env "AZURE_SPEECH_REGION"%string) = false ->
   Config.REGION env = env "AZURE_REGION"%string).
Proof.
  unfold Config.exits, Config.REGION, Config.KEY, Config.or_else.
  split; [| split].
  - rewrite orb_false_iff, !negb_false_iff, truthy_text_spec.
    destruct (truthy_text (env "AZURE_SPEECH_REGION"%string)) eqn:Hr.
    + rewrite Hr. apply truthy_text_spec in Hr. tauto.
    + rewrite truthy_text_spec.
      assert (Hno : ~ exists r, env "AZURE_SPEECH_REGION"%string = Some r /\ r <> ""%string).
      { intros Hex. apply truthy_text_spec in Hex. congruence. }
      tauto.
  - intros r Hr Hne.
    assert (Ht : truthy_text (env "AZURE_SPEECH_REGION"%string) = true)
      by (apply truthy_text_spec; by exists r).
    by rewrite Ht.
  - by intros ->.
Qed.

(** The webhook address is [N8N_WEBHOOK_URL] when that is non-empty,
    otherwise [N8N_WEBHOOK] when that is non-empty, otherwise the empty
    string; it is empty exactly when neither variable is set to a non-empty
    string, and whether the process starts does not depend on it. *)
Theorem webhook_is_optional (env : Config.environment) :
  (forall u, env "N8N_WEBHOOK_URL"%string = Some u -> u <> ""%string ->
             Config.N8N env = u) /\
  (truthy_text (env "N8N_WEBHOOK_URL"%string) = false ->
   forall w, env "N8N_WEBHOOK"%string = Some w -> Config.N8N env = w) /\
  (Config.N8N env = ""%string <->
   truthy_text (env "N8N_WEBHOOK_URL"%string) = false /\
   truthy_text (env "N8N_WEBHOOK"%string) = false) /\
  (forall env' : Config.environment,
      env' "AZURE_SPEECH_KEY"%string = env "AZURE_SPEECH_KEY"%string ->
      env' "AZURE_SPEECH_REGION"%string = env "AZURE_SPEECH_REGION"%string ->
      env' "AZURE_REGION"%string = env "AZURE_REGION"%string ->
      Config.exits env' = Config.exits env).
Proof.
  unfold Config.N8N, Config.or_else. split; [| split; [| split]].
  - intros u Hu Hne. rewrite Hu.
    assert (Ht : truthy_text (Some u) = true) by (apply truthy_text_spec; by exists u).
    by rewrite Ht, Ht.
  - intros Hurl w Hw. rewrite Hurl, Hw.
    destruct (truthy_text (Some w)) eqn:Ht; [reflexivity |].
    simpl in Ht. apply negb_false_iff, String.eqb_eq in Ht. by subst w.
  - destruct (truthy_text (env "N8N_WEBHOOK_URL"%string)) eqn:Hu.
    + rewrite Hu. apply truthy_text_spec in Hu as (u & -> & Hne).
      split; [intros Heq; by destruct Hne | by intros [? _]].
    + destruct (truthy_text (env "N8N_WEBHOOK"%string)) eqn:Hw.
      * apply truthy_text_spec in Hw as (w & -> & Hne).
        split; [intros Heq; by destruct Hne | by intros [_ ?]].
      * by split.
  - intros env' Hk Hr Hr'. unfold Config.exits, Config.REGION, Config.KEY, Config.or_else.
    by rewrite Hk, Hr, Hr'.
Qed.

(** ** Frames outside the streaming state *)




